(** * dictionary-plus: the record reconciliation layer

    A shallow embedding of [src/actions/index.ts] (the six Astro actions)
    over the four tables of [db/tables.ts], and the properties of the
    specification that concern them.

    Conventions of the embedding.
    - A JavaScript [Date] is its time value, a [Z] (milliseconds).
    - A value that may be [undefined] or [null] is a [Maybe]; [a ?? b] is
      nullish coalescing.  A field of a validated input declared
      [.optional()] is an [option] ([None] is [undefined]).
    - A handler is a function of the world (the database and the clock)
      returning what it returns or throws, and the world it leaves.
      Every [new Date()] is one reading of the clock.
    - [astro:db] is an external library.  Its query builder is modelled on
      lists of rows: [select().from(T).where(p)] filters, [limit] truncates,
      [insert(T).values(v)] appends one row under the next id, or throws
      and writes nothing when the row breaks a reference of the table,
      [update(T).set(v).where(p)] rewrites the matching rows in place,
      leaving a column alone when its key in [v] is [undefined], and
      [returning()] yields the rows written. *)

From Stdlib Require Import ZArith List String Bool Lia.
Import ListNotations.
Local Open Scope Z_scope.
Local Open Scope string_scope.
Local Open Scope list_scope.

(** ** JavaScript values *)

Definition Date := Z.

Inductive Maybe (A : Type) : Type :=
| undefined : Maybe A
| null : Maybe A
| val : A -> Maybe A.
Arguments undefined {A}.
Arguments null {A}.
Arguments val {A} _.

(** [a ?? b]: [b] when [a] is [undefined] or [null], else [a]. *)
Definition nullish {A} (a b : Maybe A) : Maybe A :=
  match a with
  | val x => val x
  | _ => b
  end.

(** [a ?? b] where [b] is never nullish. *)
Definition nullish_or {A} (a : Maybe A) (b : A) : A :=
  match a with
  | val x => x
  | _ => b
  end.

Notation "a ?? b" := (nullish a b) (at level 45, left associativity).
Notation "a ??! b" := (nullish_or a b) (at level 45, left associativity).

(** An optional input field as a JavaScript value. *)
Definition given {A} (o : option A) : Maybe A :=
  match o with
  | Some x => val x
  | None => undefined
  end.

(** A nullable column read from a row: SQL NULL reads as [null]. *)
Definition column {A} (o : option A) : Maybe A :=
  match o with
  | Some x => val x
  | None => null
  end.

(** [existing?.f]: [undefined] when there is no [existing]. *)
Definition optchain {R A} (existing : option R) (f : R -> Maybe A) : Maybe A :=
  match existing with
  | Some r => f r
  | None => undefined
  end.

(** A value bound to a nullable column by [values] on insert:
    [undefined] and [null] both store NULL. *)
Definition stored {A} (m : Maybe A) : option A :=
  match m with
  | val x => Some x
  | _ => None
  end.

(** A value bound to a nullable column by [set] on update:
    [undefined] leaves the column as it is, [null] stores NULL. *)
Definition assign {A} (m : Maybe A) (old : option A) : option A :=
  match m with
  | undefined => old
  | null => None
  | val x => Some x
  end.

(** Truthiness of an integer: the test of [if (input.id)] when [input.id]
    is a number ([undefined] is falsy). *)
Definition truthy (n : Z) : bool := negb (Z.eqb n 0).

(** JSON data, the content of a [column.json]. *)
#[warnings="-register-all"]
Inductive Json : Type :=
| JNull
| JBool (b : bool)
| JNum (n : Z)
| JStr (s : string)
| JArr (l : list Json)
| JObj (l : list (string * Json)).

(** [z.any().optional()]: [undefined], [null] or a value. *)
Definition given_json (o : option Json) : Maybe Json :=
  match o with
  | None => undefined
  | Some JNull => null
  | Some j => val j
  end.

(** ** Tables ([db/tables.ts]) *)

Module DictionaryEntries.
Record row := {
    id : Z;
    term : string;
    language : string;
    lemma : option string;
    payload : option Json;
    partOfSpeech : option string;
    fetchedAt : Date;
    createdAt : Date;
    updatedAt : Date
  }.

(** The object literal [baseValues] of [upsertEntry]. *)
Record values := {
    v_term : string;
    v_language : string;
    v_lemma : Maybe string;
    v_payload : Maybe Json;
    v_partOfSpeech : Maybe string;
    v_fetchedAt : Date;
    v_createdAt : Date;
    v_updatedAt : Date
  }.

Definition insert_row (i : Z) (v : values) : row :=
    {| id := i;
       term := v_term v;
       language := v_language v;
       lemma := stored (v_lemma v);
       payload := stored (v_payload v);
       partOfSpeech := stored (v_partOfSpeech v);
       fetchedAt := v_fetchedAt v;
       createdAt := v_createdAt v;
       updatedAt := v_updatedAt v |}.

Definition set_row (v : values) (r : row) : row :=
    {| id := id r;
       term := v_term v;
       language := v_language v;
       lemma := assign (v_lemma v) (lemma r);
       payload := assign (v_payload v) (payload r);
       partOfSpeech := assign (v_partOfSpeech v) (partOfSpeech r);
       fetchedAt := v_fetchedAt v;
       createdAt := v_createdAt v;
       updatedAt := v_updatedAt v |}.
End DictionaryEntries.

Module EntryVariants.
Record row := {
    id : Z;
    entryId : Z;
    variant : string;
    variantType : option string;
    createdAt : Date
  }.

Record values := {
    v_entryId : Z;
    v_variant : string;
    v_variantType : Maybe string;
    v_createdAt : Date
  }.

Definition insert_row (i : Z) (v : values) : row :=
    {| id := i;
       entryId := v_entryId v;
       variant := v_variant v;
       variantType := stored (v_variantType v);
       createdAt := v_createdAt v |}.
End EntryVariants.

Inductive Familiarity : Type := Fnew | learning | familiar | mastered.

Module UserWordNotes.
Record row := {
    id : Z;
    userId : string;
    entryId : Z;
    tags : option string;
    note : option string;
    exampleSentence : option string;
    isStarred : bool;
    familiarity : Familiarity;
    createdAt : Date;
    updatedAt : Date
  }.

(** The object literal [baseValues] of [saveUserNote]. *)
Record values := {
    v_entryId : Z;
    v_userId : string;
    v_tags : Maybe string;
    v_note : Maybe string;
    v_exampleSentence : Maybe string;
    v_isStarred : bool;
    v_familiarity : Familiarity;
    v_createdAt : Date;
    v_updatedAt : Date
  }.

Definition insert_row (i : Z) (v : values) : row :=
    {| id := i;
       userId := v_userId v;
       entryId := v_entryId v;
       tags := stored (v_tags v);
       note := stored (v_note v);
       exampleSentence := stored (v_exampleSentence v);
       isStarred := v_isStarred v;
       familiarity := v_familiarity v;
       createdAt := v_createdAt v;
       updatedAt := v_updatedAt v |}.

Definition set_row (v : values) (r : row) : row :=
    {| id := id r;
       userId := v_userId v;
       entryId := v_entryId v;
       tags := assign (v_tags v) (tags r);
       note := assign (v_note v) (note r);
       exampleSentence := assign (v_exampleSentence v) (exampleSentence r);
       isStarred := v_isStarred v;
       familiarity := v_familiarity v;
       createdAt := v_createdAt v;
       updatedAt := v_updatedAt v |}.
End UserWordNotes.

Module LookupHistory.
Record row := {
    id : Z;
    userId : option string;
    term : string;
    language : string;
    entryId : option Z;
    lookedAt : Date;
    source : option string;
    context : option string
  }.

Record values := {
    v_userId : string;
    v_term : string;
    v_language : string;
    v_entryId : Maybe Z;
    v_lookedAt : Date;
    v_source : Maybe string;
    v_context : Maybe string
  }.

Definition insert_row (i : Z) (v : values) : row :=
    {| id := i;
       userId := Some (v_userId v);
       term := v_term v;
       language := v_language v;
       entryId := stored (v_entryId v);
       lookedAt := v_lookedAt v;
       source := stored (v_source v);
       context := stored (v_context v) |}.
End LookupHistory.

(** ** The database and the world *)

Record Db := {
  tDictionaryEntries : list DictionaryEntries.row;
  tEntryVariants : list EntryVariants.row;
  tUserWordNotes : list UserWordNotes.row;
  tLookupHistory : list LookupHistory.row
}.

Definition empty_db : Db :=
  {| tDictionaryEntries := []; tEntryVariants := [];
     tUserWordNotes := []; tLookupHistory := [] |}.

(** The world of a handler: the database, the clock as the sequence of
    its readings, and how many readings were taken so far. *)
Record World := {
  db : Db;
  clock : nat -> Date;
  reads : nat
}.

Definition with_db (d : Db) (w : World) : World :=
  {| db := d; clock := clock w; reads := reads w |}.

(** ** Handlers: state and [ActionError] *)

(** [UNAUTHORIZED] and [NOT_FOUND] are the codes of the [ActionError]s the
    handlers throw.  An exception that is not an [ActionError], here a
    constraint failure of the database, reaches the caller of an action
    under the code [INTERNAL_SERVER_ERROR]. *)
Inductive ActionErrorCode : Type :=
  UNAUTHORIZED | NOT_FOUND | INTERNAL_SERVER_ERROR.

Inductive Outcome (A : Type) : Type :=
| Return : A -> Outcome A
| Throw : ActionErrorCode -> Outcome A.
Arguments Return {A} _.
Arguments Throw {A} _.

Definition Handler (A : Type) : Type := World -> Outcome A * World.

Definition ret {A} (a : A) : Handler A := fun w => (Return a, w).

Definition throw {A} (code : ActionErrorCode) : Handler A :=
  fun w => (Throw code, w).

Definition bind {A B} (m : Handler A) (k : A -> Handler B) : Handler B :=
  fun w =>
    match m w with
    | (Return a, w') => k a w'
    | (Throw code, w') => (Throw code, w')
    end.

Notation "x <- m ;; k" := (bind m (fun x => k))
  (at level 100, m at next level, right associativity).

(** [new Date()] *)
Definition newDate : Handler Date :=
  fun w => (Return (clock w (reads w)),
            {| db := db w; clock := clock w; reads := S (reads w) |}).

(** ** The query builder *)

Section Query.
Context {row : Type}.

Definition where_ (p : row -> bool) (rows : list row) : list row :=
    filter p rows.

Definition limit (n : nat) (rows : list row) : list row := firstn n rows.

(** Array destructuring [const [x] = rows]. *)
Definition first (rows : list row) : option row := hd_error rows.

(** The id of the next inserted row: one more than the greatest id
      of the table, 1 in an empty table. *)
Definition next_id (id : row -> Z) (rows : list row) : Z :=
    fold_right (fun r m => Z.max (id r) m) 0 rows + 1.

Definition update_rows (set : row -> row) (p : row -> bool)
      (rows : list row) : list row :=
    map (fun r => if p r then set r else r) rows.

(** [returning()] of an update: the rows written, as written. *)
Definition updated_rows (set : row -> row) (p : row -> bool)
      (rows : list row) : list row :=
    map set (filter p rows).
End Query.

Definition select_DictionaryEntries (p : DictionaryEntries.row -> bool)
  : Handler (list DictionaryEntries.row) :=
  fun w => (Return (where_ p (tDictionaryEntries (db w))), w).

Definition select_UserWordNotes (p : UserWordNotes.row -> bool)
  : Handler (list UserWordNotes.row) :=
  fun w => (Return (where_ p (tUserWordNotes (db w))), w).

Definition select_LookupHistory (p : LookupHistory.row -> bool)
  : Handler (list LookupHistory.row) :=
  fun w => (Return (where_ p (tLookupHistory (db w))), w).

Definition insert_DictionaryEntries (v : DictionaryEntries.values)
  : Handler (list DictionaryEntries.row) :=
  fun w =>
    let d := db w in
    let r := DictionaryEntries.insert_row
               (next_id DictionaryEntries.id (tDictionaryEntries d)) v in
    (Return [r],
     with_db {| tDictionaryEntries := tDictionaryEntries d ++ [r];
                tEntryVariants := tEntryVariants d;
                tUserWordNotes := tUserWordNotes d;
                tLookupHistory := tLookupHistory d |} w).

Definition update_DictionaryEntries (v : DictionaryEntries.values)
    (p : DictionaryEntries.row -> bool)
  : Handler (list DictionaryEntries.row) :=
  fun w =>
    let d := db w in
    (Return (updated_rows (DictionaryEntries.set_row v) p (tDictionaryEntries d)),
     with_db {| tDictionaryEntries :=
                  update_rows (DictionaryEntries.set_row v) p (tDictionaryEntries d);
                tEntryVariants := tEntryVariants d;
                tUserWordNotes := tUserWordNotes d;
                tLookupHistory := tLookupHistory d |} w).

Definition insert_EntryVariants (v : EntryVariants.values)
  : Handler (list EntryVariants.row) :=
  fun w =>
    let d := db w in
    let r := EntryVariants.insert_row
               (next_id EntryVariants.id (tEntryVariants d)) v in
    (Return [r],
     with_db {| tDictionaryEntries := tDictionaryEntries d;
                tEntryVariants := tEntryVariants d ++ [r];
                tUserWordNotes := tUserWordNotes d;
                tLookupHistory := tLookupHistory d |} w).

Definition insert_UserWordNotes (v : UserWordNotes.values)
  : Handler (list UserWordNotes.row) :=
  fun w =>
    let d := db w in
    let r := UserWordNotes.insert_row
               (next_id UserWordNotes.id (tUserWordNotes d)) v in
    (Return [r],
     with_db {| tDictionaryEntries := tDictionaryEntries d;
                tEntryVariants := tEntryVariants d;
                tUserWordNotes := tUserWordNotes d ++ [r];
                tLookupHistory := tLookupHistory d |} w).

Definition update_UserWordNotes (v : UserWordNotes.values)
    (p : UserWordNotes.row -> bool)
  : Handler (list UserWordNotes.row) :=
  fun w =>
    let d := db w in
    (Return (updated_rows (UserWordNotes.set_row v) p (tUserWordNotes d)),
     with_db {| tDictionaryEntries := tDictionaryEntries d;
                tEntryVariants := tEntryVariants d;
                tUserWordNotes :=
                  update_rows (UserWordNotes.set_row v) p (tUserWordNotes d);
                tLookupHistory := tLookupHistory d |} w).

(** The reference of [LookupHistory.entryId] to [DictionaryEntries.id]
    ([db/tables.ts], lines 103-106): NULL is accepted, an id must be the
    id of a stored entry. *)
Definition references_entry (entryId : option Z)
    (entries : list DictionaryEntries.row) : bool :=
  match entryId with
  | None => true
  | Some id => existsb (fun e => Z.eqb (DictionaryEntries.id e) id) entries
  end.

(** [logLookup] inserts [input.entryId] as it is given, so this insert is
    the one that can break a reference: then the database throws and
    nothing is written.  ([addVariant] and [saveUserNote] write an
    [entryId] only after they selected its entry.) *)
Definition insert_LookupHistory (v : LookupHistory.values)
  : Handler (list LookupHistory.row) :=
  fun w =>
    let d := db w in
    let r := LookupHistory.insert_row
               (next_id LookupHistory.id (tLookupHistory d)) v in
    if references_entry (LookupHistory.entryId r) (tDictionaryEntries d)
    then
      (Return [r],
       with_db {| tDictionaryEntries := tDictionaryEntries d;
                  tEntryVariants := tEntryVariants d;
                  tUserWordNotes := tUserWordNotes d;
                  tLookupHistory := tLookupHistory d ++ [r] |} w)
    else (Throw INTERNAL_SERVER_ERROR, w).

(** ** The call context *)

(** Modelled from the spec: the declaration of [App.Locals] and of its
    [user] is not among the sources; the authentication provider "yields
    an opaque user identity (at minimum a stable id)", stored by the
    handlers in a text column. *)
Module User.
Record t := { id : string }.
End User.

Record Locals := { user : Maybe User.t }.

Record ActionAPIContext := { locals : option Locals }.

(** ** Validated inputs (the [z.object] schemas) *)

Module UpsertEntryInput.
Record t := {
  id : option Z;
  term : string;
  language : option string;
  lemma : option string;
  payload : option Json;
  partOfSpeech : option string;
  fetchedAt : option Date
}.
End UpsertEntryInput.

Module AddVariantInput.
Record t := {
  entryId : Z;
  variant : string;
  variantType : option string
}.
End AddVariantInput.

Module SaveUserNoteInput.
Record t := {
  entryId : Z;
  tags : option string;
  note : option string;
  exampleSentence : option string;
  isStarred : option bool;
  familiarity : option Familiarity
}.
End SaveUserNoteInput.

Module LogLookupInput.
Record t := {
  term : string;
  language : option string;
  entryId : option Z;
  source : option string;
  context : option string
}.
End LogLookupInput.

(** ** The actions ([src/actions/index.ts]) *)

Definition requireUser (context : ActionAPIContext) : Handler User.t :=
  let user := optchain (locals context) user in
  match user with
  | val u => ret u
  | _ => throw UNAUTHORIZED
  end.

(** [x ?? new Date()]: the clock is read only when [x] is nullish. *)
Definition or_newDate (x : Maybe Date) : Handler Date :=
  match x with
  | val d => ret d
  | _ => newDate
  end.

(** Lines 40-49: the object [baseValues] of [upsertEntry]. *)
Definition upsertEntry_baseValues (input : UpsertEntryInput.t)
  : Handler DictionaryEntries.values :=
  fetchedAt <- or_newDate (given (UpsertEntryInput.fetchedAt input)) ;;
  createdAt <- newDate ;;
  updatedAt <- newDate ;;
  ret {| DictionaryEntries.v_term := UpsertEntryInput.term input;
         DictionaryEntries.v_language :=
           given (UpsertEntryInput.language input) ??! "en";
         DictionaryEntries.v_lemma := given (UpsertEntryInput.lemma input);
         DictionaryEntries.v_payload :=
           given_json (UpsertEntryInput.payload input);
         DictionaryEntries.v_partOfSpeech :=
           given (UpsertEntryInput.partOfSpeech input);
         DictionaryEntries.v_fetchedAt := fetchedAt;
         DictionaryEntries.v_createdAt := createdAt;
         DictionaryEntries.v_updatedAt := updatedAt |}.

Definition upsertEntry_update (id : Z)
    (baseValues : DictionaryEntries.values)
  : Handler (option DictionaryEntries.row) :=
  found <- select_DictionaryEntries
             (fun r => Z.eqb (DictionaryEntries.id r) id) ;;
  match first (limit 1 found) with
  | None => throw NOT_FOUND
  | Some existing =>
      written <- update_DictionaryEntries baseValues
                   (fun r => Z.eqb (DictionaryEntries.id r) id) ;;
      ret (first written)
  end.

Definition upsertEntry_insert (baseValues : DictionaryEntries.values)
  : Handler (option DictionaryEntries.row) :=
  written <- insert_DictionaryEntries baseValues ;;
  ret (first written).

Definition upsertEntry (input : UpsertEntryInput.t)
  : Handler (option DictionaryEntries.row) :=
  baseValues <- upsertEntry_baseValues input ;;
  match UpsertEntryInput.id input with
  | Some id =>
      if truthy id then upsertEntry_update id baseValues
      else upsertEntry_insert baseValues
  | None => upsertEntry_insert baseValues
  end.

Definition addVariant (input : AddVariantInput.t)
  : Handler (option EntryVariants.row) :=
  found <- select_DictionaryEntries
             (fun r => Z.eqb (DictionaryEntries.id r)
                             (AddVariantInput.entryId input)) ;;
  match first (limit 1 found) with
  | None => throw NOT_FOUND
  | Some entry =>
      createdAt <- newDate ;;
      written <- insert_EntryVariants
        {| EntryVariants.v_entryId := AddVariantInput.entryId input;
           EntryVariants.v_variant := AddVariantInput.variant input;
           EntryVariants.v_variantType :=
             given (AddVariantInput.variantType input);
           EntryVariants.v_createdAt := createdAt |} ;;
      ret (first written)
  end.

(** Lines 135-145: the object [baseValues] of [saveUserNote]. *)
Definition saveUserNote_baseValues (input : SaveUserNoteInput.t)
    (user : User.t) (existing : option UserWordNotes.row)
  : Handler UserWordNotes.values :=
  createdAt <- or_newDate
    (optchain existing (fun e => val (UserWordNotes.createdAt e))) ;;
  updatedAt <- newDate ;;
  ret {| UserWordNotes.v_entryId := SaveUserNoteInput.entryId input;
         UserWordNotes.v_userId := User.id user;
         UserWordNotes.v_tags :=
           given (SaveUserNoteInput.tags input)
           ?? optchain existing (fun e => column (UserWordNotes.tags e));
         UserWordNotes.v_note :=
           given (SaveUserNoteInput.note input)
           ?? optchain existing (fun e => column (UserWordNotes.note e));
         UserWordNotes.v_exampleSentence :=
           given (SaveUserNoteInput.exampleSentence input)
           ?? optchain existing
                (fun e => column (UserWordNotes.exampleSentence e));
         UserWordNotes.v_isStarred :=
           given (SaveUserNoteInput.isStarred input)
           ?? optchain existing (fun e => val (UserWordNotes.isStarred e))
           ??! false;
         UserWordNotes.v_familiarity :=
           given (SaveUserNoteInput.familiarity input)
           ?? optchain existing (fun e => val (UserWordNotes.familiarity e))
           ??! Fnew;
         UserWordNotes.v_createdAt := createdAt;
         UserWordNotes.v_updatedAt := updatedAt |}.

(** The filter [and(eq(entryId, input.entryId), eq(userId, user.id))]. *)
Definition same_pair (entryId : Z) (userId : string)
    (r : UserWordNotes.row) : bool :=
  Z.eqb (UserWordNotes.entryId r) entryId
  && String.eqb (UserWordNotes.userId r) userId.

Definition saveUserNote (input : SaveUserNoteInput.t)
    (context : ActionAPIContext)
  : Handler (option UserWordNotes.row) :=
  user <- requireUser context ;;
  found <- select_DictionaryEntries
             (fun r => Z.eqb (DictionaryEntries.id r)
                             (SaveUserNoteInput.entryId input)) ;;
  match first (limit 1 found) with
  | None => throw NOT_FOUND
  | Some entry =>
      notes <- select_UserWordNotes
                 (same_pair (SaveUserNoteInput.entryId input) (User.id user)) ;;
      let existing := first (limit 1 notes) in
      baseValues <- saveUserNote_baseValues input user existing ;;
      match existing with
      | Some e =>
          written <- update_UserWordNotes baseValues
                       (fun r => Z.eqb (UserWordNotes.id r)
                                       (UserWordNotes.id e)) ;;
          ret (first written)
      | None =>
          written <- insert_UserWordNotes baseValues ;;
          ret (first written)
      end
  end.

Definition listUserNotes (context : ActionAPIContext)
  : Handler (list UserWordNotes.row) :=
  user <- requireUser context ;;
  notes <- select_UserWordNotes
             (fun r => String.eqb (UserWordNotes.userId r) (User.id user)) ;;
  ret notes.

Definition logLookup (input : LogLookupInput.t) (context : ActionAPIContext)
  : Handler (option LookupHistory.row) :=
  user <- requireUser context ;;
  lookedAt <- newDate ;;
  written <- insert_LookupHistory
    {| LookupHistory.v_userId := User.id user;
       LookupHistory.v_term := LogLookupInput.term input;
       LookupHistory.v_language :=
         given (LogLookupInput.language input) ??! "en";
       LookupHistory.v_entryId := given (LogLookupInput.entryId input);
       LookupHistory.v_lookedAt := lookedAt;
       LookupHistory.v_source := given (LogLookupInput.source input);
       LookupHistory.v_context := given (LogLookupInput.context input) |} ;;
  ret (first written).

(** A text column that may hold NULL, compared by [eq] with a string:
    NULL matches nothing. *)
Definition eq_text (c : option string) (s : string) : bool :=
  match c with
  | Some x => String.eqb x s
  | None => false
  end.

Definition listLookupHistory (context : ActionAPIContext)
  : Handler (list LookupHistory.row) :=
  user <- requireUser context ;;
  history <- select_LookupHistory
               (fun r => eq_text (LookupHistory.userId r) (User.id user)) ;;
  ret history.

(** ** The six operations as calls on [server] *)

Inductive Call : Type :=
| CallUpsertEntry (input : UpsertEntryInput.t)
| CallAddVariant (input : AddVariantInput.t)
| CallSaveUserNote (input : SaveUserNoteInput.t)
| CallListUserNotes
| CallLogLookup (input : LogLookupInput.t)
| CallListLookupHistory.

(** The world a handler leaves, whether it returned or threw. *)
Definition after {A} (h : Handler A) (w : World) : World := snd (h w).

Definition outcome {A} (h : Handler A) (w : World) : Outcome A := fst (h w).

Definition server (c : Call) (context : ActionAPIContext) (w : World)
  : World :=
  match c with
  | CallUpsertEntry input => after (upsertEntry input) w
  | CallAddVariant input => after (addVariant input) w
  | CallSaveUserNote input => after (saveUserNote input context) w
  | CallListUserNotes => after (listUserNotes context) w
  | CallLogLookup input => after (logLookup input context) w
  | CallListLookupHistory => after (listLookupHistory context) w
  end.

(** ** Vocabulary of the properties *)

(** The authenticated identity of a call context, if it has one:
    [context.locals?.user] when it is neither [undefined] nor [null]. *)
Definition current_user (context : ActionAPIContext) : option User.t :=
  stored (optchain (locals context) user).

(** A DictionaryEntry with this id is in the store. *)
Definition entry_exists (id : Z) (d : Db) : Prop :=
  exists e, In e (tDictionaryEntries d) /\ DictionaryEntries.id e = id.

(** An optional entryId that breaks no reference: it is absent, or it is
    the id of a stored DictionaryEntry. *)
Definition entry_reference_ok (entryId : option Z) (d : Db) : Prop :=
  match entryId with
  | None => True
  | Some id => entry_exists id d
  end.

(** The clock never runs backwards. *)
Definition monotone (c : nat -> Date) : Prop :=
  forall n, c n <= c (S n).

(** The reading of the clock that [upsertEntry] takes for [createdAt]:
    the first of the call when the input gives [fetchedAt], the second
    when it does not.  The reading for [updatedAt] is the next one. *)
Definition created_reading (input : UpsertEntryInput.t) (w : World) : nat :=
  match UpsertEntryInput.fetchedAt input with
  | Some _ => reads w
  | None => S (reads w)
  end.

(** The primary key of UserWordNotes, and the rule of one note for each
    (entryId, userId) pair. *)
Definition notes_ok (notes : list UserWordNotes.row) : Prop :=
  NoDup (map UserWordNotes.id notes) /\
  forall entryId userId,
    (List.length (where_ (same_pair entryId userId) notes) <= 1)%nat.

(** The worlds the six operations can reach from an empty database. *)
Inductive reachable : World -> Prop :=
| reachable_empty : forall c n,
    reachable {| db := empty_db; clock := c; reads := n |}
| reachable_call : forall w call context,
    reachable w -> reachable (server call context w).

(** The record [upsertEntry] writes for [input], given the row it found
    under [input.id], if any: the found row rewritten by [set], or a row
    inserted under the id [fresh]. *)
Definition upsertEntry_merge (existing : option DictionaryEntries.row)
    (input : UpsertEntryInput.t) (fresh : Z)
  : Handler DictionaryEntries.row :=
  baseValues <- upsertEntry_baseValues input ;;
  ret match existing with
      | Some e => DictionaryEntries.set_row baseValues e
      | None => DictionaryEntries.insert_row fresh baseValues
      end.

(** The record [saveUserNote] writes for [input] and [user], given the
    note it found for the pair, if any. *)
Definition saveUserNote_merge (existing : option UserWordNotes.row)
    (input : SaveUserNoteInput.t) (user : User.t) (fresh : Z)
  : Handler UserWordNotes.row :=
  baseValues <- saveUserNote_baseValues input user existing ;;
  ret match existing with
      | Some e => UserWordNotes.set_row baseValues e
      | None => UserWordNotes.insert_row fresh baseValues
      end.

(** [keeps proj h]: the part [proj] of the database is the same after [h]
    as before it, whether [h] returns or throws. *)
Definition keeps {T A} (proj : Db -> T) (h : Handler A) : Prop :=
  forall w, proj (db (after h w)) = proj (db w).

(** A note with another [updatedAt]. *)
Definition with_updatedAt (t : Date) (r : UserWordNotes.row)
  : UserWordNotes.row :=
  {| UserWordNotes.id := UserWordNotes.id r;
     UserWordNotes.userId := UserWordNotes.userId r;
     UserWordNotes.entryId := UserWordNotes.entryId r;
     UserWordNotes.tags := UserWordNotes.tags r;
     UserWordNotes.note := UserWordNotes.note r;
     UserWordNotes.exampleSentence := UserWordNotes.exampleSentence r;
     UserWordNotes.isStarred := UserWordNotes.isStarred r;
     UserWordNotes.familiarity := UserWordNotes.familiarity r;
     UserWordNotes.createdAt := UserWordNotes.createdAt r;
     UserWordNotes.updatedAt := t |}.

(** A sequence of calls, each under its own context. *)
Fixpoint run (calls : list (Call * ActionAPIContext)) (w : World) : World :=
  match calls with
  | [] => w
  | (call, context) :: rest => run rest (server call context w)
  end.

(** What one call can do to the world: nothing to the database, or one of
    the six writes of the handlers.  Each write records what the handler
    checked before it and which readings of the clock it stored. *)
Inductive Step (w w' : World) : Prop :=
| StepNothing :
    db w' = db w ->
    (reads w <= reads w')%nat ->
    Step w w'
| StepEntryInsert (v : DictionaryEntries.values) (k : nat) :
    (reads w <= k)%nat -> reads w' = S (S k) ->
    DictionaryEntries.v_createdAt v = clock w k ->
    DictionaryEntries.v_updatedAt v = clock w (S k) ->
    tDictionaryEntries (db w') =
      tDictionaryEntries (db w)
      ++ [DictionaryEntries.insert_row
            (next_id DictionaryEntries.id (tDictionaryEntries (db w))) v] ->
    tEntryVariants (db w') = tEntryVariants (db w) ->
    tUserWordNotes (db w') = tUserWordNotes (db w) ->
    tLookupHistory (db w') = tLookupHistory (db w) ->
    Step w w'
| StepEntryUpdate (v : DictionaryEntries.values) (k : nat) (id : Z)
    (existing : DictionaryEntries.row) :
    (reads w <= k)%nat -> reads w' = S (S k) ->
    DictionaryEntries.v_createdAt v = clock w k ->
    DictionaryEntries.v_updatedAt v = clock w (S k) ->
    find (fun r => Z.eqb (DictionaryEntries.id r) id)
         (tDictionaryEntries (db w)) = Some existing ->
    tDictionaryEntries (db w') =
      update_rows (DictionaryEntries.set_row v)
        (fun r => Z.eqb (DictionaryEntries.id r) id)
        (tDictionaryEntries (db w)) ->
    tEntryVariants (db w') = tEntryVariants (db w) ->
    tUserWordNotes (db w') = tUserWordNotes (db w) ->
    tLookupHistory (db w') = tLookupHistory (db w) ->
    Step w w'
| StepVariantInsert (v : EntryVariants.values) :
    reads w' = S (reads w) ->
    entry_exists (EntryVariants.v_entryId v) (db w) ->
    tEntryVariants (db w') =
      tEntryVariants (db w)
      ++ [EntryVariants.insert_row
            (next_id EntryVariants.id (tEntryVariants (db w))) v] ->
    tDictionaryEntries (db w') = tDictionaryEntries (db w) ->
    tUserWordNotes (db w') = tUserWordNotes (db w) ->
    tLookupHistory (db w') = tLookupHistory (db w) ->
    Step w w'
| StepNoteInsert (v : UserWordNotes.values) :
    reads w' = S (S (reads w)) ->
    entry_exists (UserWordNotes.v_entryId v) (db w) ->
    find (same_pair (UserWordNotes.v_entryId v) (UserWordNotes.v_userId v))
         (tUserWordNotes (db w)) = None ->
    UserWordNotes.v_createdAt v = clock w (reads w) ->
    UserWordNotes.v_updatedAt v = clock w (S (reads w)) ->
    tUserWordNotes (db w') =
      tUserWordNotes (db w)
      ++ [UserWordNotes.insert_row
            (next_id UserWordNotes.id (tUserWordNotes (db w))) v] ->
    tDictionaryEntries (db w') = tDictionaryEntries (db w) ->
    tEntryVariants (db w') = tEntryVariants (db w) ->
    tLookupHistory (db w') = tLookupHistory (db w) ->
    Step w w'
| StepNoteUpdate (v : UserWordNotes.values) (e : UserWordNotes.row) :
    reads w' = S (reads w) ->
    entry_exists (UserWordNotes.v_entryId v) (db w) ->
    find (same_pair (UserWordNotes.v_entryId v) (UserWordNotes.v_userId v))
         (tUserWordNotes (db w)) = Some e ->
    UserWordNotes.v_createdAt v = UserWordNotes.createdAt e ->
    UserWordNotes.v_updatedAt v = clock w (reads w) ->
    tUserWordNotes (db w') =
      update_rows (UserWordNotes.set_row v)
        (fun r => Z.eqb (UserWordNotes.id r) (UserWordNotes.id e))
        (tUserWordNotes (db w)) ->
    tDictionaryEntries (db w') = tDictionaryEntries (db w) ->
    tEntryVariants (db w') = tEntryVariants (db w) ->
    tLookupHistory (db w') = tLookupHistory (db w) ->
    Step w w'
| StepHistoryInsert (v : LookupHistory.values) :
    reads w' = S (reads w) ->
    tLookupHistory (db w') =
      tLookupHistory (db w)
      ++ [LookupHistory.insert_row
            (next_id LookupHistory.id (tLookupHistory (db w))) v] ->
    tDictionaryEntries (db w') = tDictionaryEntries (db w) ->
    tEntryVariants (db w') = tEntryVariants (db w) ->
    tUserWordNotes (db w') = tUserWordNotes (db w) ->
    Step w w'.

(** The ids of a table are a key, and they are positive. *)
Definition key {row} (id : row -> Z) (rows : list row) : Prop :=
  NoDup (map id rows) /\ forall r, In r rows -> 0 < id r.

Definition ids_ok (d : Db) : Prop :=
  key DictionaryEntries.id (tDictionaryEntries d) /\
  key EntryVariants.id (tEntryVariants d) /\
  key UserWordNotes.id (tUserWordNotes d) /\
  key LookupHistory.id (tLookupHistory d).

(** Every variant and every note is attached to a stored entry. *)
Definition references_ok (d : Db) : Prop :=
  (forall v, In v (tEntryVariants d) ->
             entry_exists (EntryVariants.entryId v) d) /\
  (forall n, In n (tUserWordNotes d) ->
             entry_exists (UserWordNotes.entryId n) d).

(** No entry and no note was updated before it was created, and no note
    was updated later than the next reading of the clock. *)
Definition stamps_ok (w : World) : Prop :=
  (forall e, In e (tDictionaryEntries (db w)) ->
     DictionaryEntries.createdAt e <= DictionaryEntries.updatedAt e) /\
  (forall n, In n (tUserWordNotes (db w)) ->
     UserWordNotes.createdAt n <= UserWordNotes.updatedAt n /\
     UserWordNotes.updatedAt n <= clock w (reads w)).

(** [steady h]: [h] reads the clock but never sets it. *)
Definition steady {A} (h : Handler A) : Prop :=
  forall w, clock (after h w) = clock w.

(** ** Sample data *)

Module Sample.

(** A clock that advances by one millisecond at each reading. *)
Definition ticking : nat -> Date := fun n => 100 + Z.of_nat n.

(** A clock that stands still. *)
Definition frozen : nat -> Date := fun _ => 100.

Definition world0 : World :=
  {| db := empty_db; clock := ticking; reads := 0 |}.

Definition signed_in (name : string) : ActionAPIContext :=
  {| locals := Some {| user := val {| User.id := name |} |} |}.

Definition anonymous : ActionAPIContext :=
  {| locals := Some {| user := undefined |} |}.

Definition run_fr : UpsertEntryInput.t :=
  {| UpsertEntryInput.id := None;
     UpsertEntryInput.term := "run";
     UpsertEntryInput.language := Some "fr";
     UpsertEntryInput.lemma := None;
     UpsertEntryInput.payload := None;
     UpsertEntryInput.partOfSpeech := Some "verb";
     UpsertEntryInput.fetchedAt := None |}.

(** [upsertEntry({id, term: "run", lemma: "run"})] *)
Definition run_lemma (id : Z) : UpsertEntryInput.t :=
  {| UpsertEntryInput.id := Some id;
     UpsertEntryInput.term := "run";
     UpsertEntryInput.language := None;
     UpsertEntryInput.lemma := Some "run";
     UpsertEntryInput.payload := None;
     UpsertEntryInput.partOfSpeech := None;
     UpsertEntryInput.fetchedAt := None |}.

(** The world after the entry "run" (id 1) was inserted. *)
Definition world1 : World := after (upsertEntry run_fr) world0.

Definition plural : AddVariantInput.t :=
  {| AddVariantInput.entryId := 1;
     AddVariantInput.variant := "runs";
     AddVariantInput.variantType := Some "plural" |}.

Definition starred : SaveUserNoteInput.t :=
  {| SaveUserNoteInput.entryId := 1;
     SaveUserNoteInput.tags := None;
     SaveUserNoteInput.note := None;
     SaveUserNoteInput.exampleSentence := None;
     SaveUserNoteInput.isStarred := Some true;
     SaveUserNoteInput.familiarity := None |}.

Definition noted : SaveUserNoteInput.t :=
  {| SaveUserNoteInput.entryId := 1;
     SaveUserNoteInput.tags := None;
     SaveUserNoteInput.note := Some "means to jog";
     SaveUserNoteInput.exampleSentence := None;
     SaveUserNoteInput.isStarred := None;
     SaveUserNoteInput.familiarity := None |}.

Definition looked_up : LogLookupInput.t :=
  {| LogLookupInput.term := "run";
     LogLookupInput.language := None;
     LogLookupInput.entryId := None;
     LogLookupInput.source := Some "web";
     LogLookupInput.context := None |}.

(** [logLookup({term: "run", entryId: 1})] *)
Definition looked_up_run : LogLookupInput.t :=
  {| LogLookupInput.term := "run";
     LogLookupInput.language := None;
     LogLookupInput.entryId := Some 1;
     LogLookupInput.source := None;
     LogLookupInput.context := None |}.

(** [logLookup({term: "run", entryId: 99})] *)
Definition looked_up_nothing : LogLookupInput.t :=
  {| LogLookupInput.term := "run";
     LogLookupInput.language := None;
     LogLookupInput.entryId := Some 99;
     LogLookupInput.source := None;
     LogLookupInput.context := None |}.

(** The world after U1 starred the entry "run", looked it up, and U2
    looked it up as well. *)
Definition world2 : World :=
  after (saveUserNote starred (signed_in "u1")) world1.

Definition world3 : World :=
  after (logLookup looked_up (signed_in "u1")) world2.

Definition world4 : World :=
  after (logLookup looked_up (signed_in "u2")) world3.

(** Some further calls. *)
Definition later_calls : list (Call * ActionAPIContext) :=
  [ (CallUpsertEntry (run_lemma 1), anonymous);
    (CallUpsertEntry run_fr, anonymous);
    (CallSaveUserNote noted, signed_in "u2");
    (CallLogLookup looked_up, signed_in "u2");
    (CallListUserNotes, signed_in "u1") ].

End Sample.

(** * Properties *)

(** ** The query builder *)

Section QueryFacts.
Context {row : Type}.
Implicit Types (p q : row -> bool) (rows : list row).

Lemma first_limit_where p rows :
  first (limit 1 (where_ p rows)) = find p rows.
Proof.
  unfold first, limit, where_.
  induction rows as [|r rows IH]; simpl; [reflexivity|].
  destruct (p r); simpl; [reflexivity | exact IH].
Qed.

Lemma find_where p rows : find p rows = hd_error (where_ p rows).
Proof.
  unfold where_. induction rows as [|r rows IH]; simpl; [reflexivity|].
  destruct (p r); simpl; [reflexivity | exact IH].
Qed.

Lemma first_updated_rows (set : row -> row) p rows :
  first (updated_rows set p rows) = option_map set (find p rows).
Proof.
  unfold first, updated_rows.
  induction rows as [|r rows IH]; simpl; [reflexivity|].
  destruct (p r); simpl; [reflexivity | exact IH].
Qed.

Lemma find_none_where p rows :
  find p rows = None -> where_ p rows = [].
Proof.
  unfold where_. induction rows as [|r rows IH]; simpl; [reflexivity|].
  destruct (p r); [discriminate | exact IH].
Qed.

Lemma where_none p rows :
  (forall r, In r rows -> p r = false) -> where_ p rows = [].
Proof.
  unfold where_. induction rows as [|r rows IH]; simpl; intros H.
  - reflexivity.
  - rewrite (H r (or_introl eq_refl)). apply IH.
    intros x Hx. apply H. now right.
Qed.

Lemma next_id_above (id : row -> Z) rows r :
  In r rows -> id r < next_id id rows.
Proof.
  unfold next_id. induction rows as [|x rows IH]; simpl; [tauto|].
  intros [-> | H]; [lia | specialize (IH H); lia].
Qed.

Lemma next_id_positive (id : row -> Z) rows : 0 < next_id id rows.
Proof.
  unfold next_id. induction rows as [|x rows IH]; simpl; lia.
Qed.

Lemma next_id_fresh (id : row -> Z) rows :
  ~ In (next_id id rows) (map id rows).
Proof.
  intros H. apply in_map_iff in H. destruct H as (r & E & H).
  apply (next_id_above id) in H. lia.
Qed.

Lemma update_rows_ids (id : row -> Z) (set : row -> row) p rows :
  (forall r, id (set r) = id r) ->
  map id (update_rows set p rows) = map id rows.
Proof.
  intros Hid. unfold update_rows. rewrite map_map.
  apply map_ext. intros r. destruct (p r); auto.
Qed.

End QueryFacts.

(** ** Authentication and identity resolution *)

Lemma requireUser_signed_in context u w :
  current_user context = Some u -> requireUser context w = (Return u, w).
Proof.
  unfold current_user, requireUser.
  destruct (optchain (locals context) user); simpl; intros H;
    try discriminate.
  now inversion H.
Qed.

Lemma requireUser_anonymous context w :
  current_user context = None ->
  requireUser context w = (Throw UNAUTHORIZED, w).
Proof.
  unfold current_user, requireUser.
  destruct (optchain (locals context) user); simpl; intros H;
    try discriminate; reflexivity.
Qed.

Lemma requireUser_returns context u w w' :
  requireUser context w = (Return u, w') ->
  current_user context = Some u /\ w' = w.
Proof.
  unfold current_user, requireUser.
  destruct (optchain (locals context) user); simpl; intros H;
    inversion H; auto.
Qed.

Lemma find_entry_some id d :
  entry_exists id d ->
  exists e, find (fun r => Z.eqb (DictionaryEntries.id r) id)
                 (tDictionaryEntries d) = Some e.
Proof.
  intros (e & Hin & Hid).
  destruct (find _ _) as [x|] eqn:F; [now exists x|].
  apply (find_none _ _ F) in Hin. simpl in Hin. lia.
Qed.

Lemma find_entry_none id d :
  ~ entry_exists id d ->
  find (fun r => Z.eqb (DictionaryEntries.id r) id)
       (tDictionaryEntries d) = None.
Proof.
  intros H. destruct (find _ _) as [x|] eqn:F; [|reflexivity].
  exfalso. apply H. apply find_some in F. destruct F as [Hin E].
  exists x. split; [exact Hin | lia].
Qed.

(** Unfolds a handler down to the query builder. *)
Ltac run_handler :=
  unfold bind, ret, throw, newDate, or_newDate,
    select_DictionaryEntries, select_UserWordNotes, select_LookupHistory,
    insert_DictionaryEntries, insert_EntryVariants, insert_UserWordNotes,
    insert_LookupHistory, update_DictionaryEntries, update_UserWordNotes,
    with_db; simpl.

Lemma unauthenticated_calls_refused_aux context w :
  current_user context = None ->
  (forall input, saveUserNote input context w = (Throw UNAUTHORIZED, w)) /\
  (forall input, logLookup input context w = (Throw UNAUTHORIZED, w)).
Proof.
  intros H. pose proof (requireUser_anonymous context w H) as R.
  split; intros; unfold saveUserNote, logLookup, bind; rewrite R;
    reflexivity.
Qed.

(** C7. A call of saveUserNote, listUserNotes, logLookup or
    listLookupHistory whose context carries no authenticated user throws
    UNAUTHORIZED and leaves the world, hence the store, as it was. *)
Theorem unauthenticated_calls_are_refused context w :
  current_user context = None ->
  (forall input, saveUserNote input context w = (Throw UNAUTHORIZED, w)) /\
  listUserNotes context w = (Throw UNAUTHORIZED, w) /\
  (forall input, logLookup input context w = (Throw UNAUTHORIZED, w)) /\
  listLookupHistory context w = (Throw UNAUTHORIZED, w).
Proof.
  intros H. pose proof (requireUser_anonymous context w H) as R.
  repeat split; intros;
    unfold saveUserNote, listUserNotes, logLookup, listLookupHistory, bind;
    rewrite R; reflexivity.
Qed.

Lemma unauthenticated_calls_are_refused_witness :
  current_user Sample.anonymous = None /\
  saveUserNote Sample.starred Sample.anonymous Sample.world1
    = (Throw UNAUTHORIZED, Sample.world1) /\
  listUserNotes Sample.anonymous Sample.world1
    = (Throw UNAUTHORIZED, Sample.world1) /\
  logLookup Sample.looked_up Sample.anonymous Sample.world1
    = (Throw UNAUTHORIZED, Sample.world1) /\
  listLookupHistory Sample.anonymous Sample.world1
    = (Throw UNAUTHORIZED, Sample.world1).
Proof.
  destruct (unauthenticated_calls_are_refused
              Sample.anonymous Sample.world1 eq_refl) as (S & L & G & H).
  split; [reflexivity|].
  split; [apply S|]. split; [exact L|]. split; [apply G | exact H].
Defined.

(** C8. For an authenticated caller, in any world, listUserNotes returns
    exactly the stored notes whose userId is the caller's id: every note
    it returns belongs to the caller. *)
Theorem listUserNotes_returns_only_own_notes context u w :
  current_user context = Some u ->
  exists notes,
    listUserNotes context w = (Return notes, w) /\
    (forall n, In n notes -> UserWordNotes.userId n = User.id u) /\
    (forall n, In n notes <->
       In n (tUserWordNotes (db w)) /\ UserWordNotes.userId n = User.id u).
Proof.
  intros H.
  exists (where_ (fun r => String.eqb (UserWordNotes.userId r) (User.id u))
                 (tUserWordNotes (db w))).
  assert (M : forall n,
    In n (where_ (fun r => String.eqb (UserWordNotes.userId r) (User.id u))
                 (tUserWordNotes (db w))) <->
    In n (tUserWordNotes (db w)) /\ UserWordNotes.userId n = User.id u).
  { intros n. unfold where_. rewrite filter_In, String.eqb_eq. tauto. }
  split; [|split].
  - unfold listUserNotes, bind.
    rewrite (requireUser_signed_in context u w H). reflexivity.
  - intros n Hn. now apply M in Hn.
  - exact M.
Qed.

(** A store with one note of U1 and one note of U2: U1 is shown the
    one note that is U1's. *)
Lemma listUserNotes_returns_only_own_notes_witness :
  current_user (Sample.signed_in "u1") = Some {| User.id := "u1" |} /\
  map UserWordNotes.userId
    (tUserWordNotes (db (run Sample.later_calls Sample.world2)))
    = ["u1"; "u2"] /\
  exists notes,
    listUserNotes (Sample.signed_in "u1")
      (run Sample.later_calls Sample.world2)
      = (Return notes, run Sample.later_calls Sample.world2) /\
    List.length notes = 1%nat /\
    forall n, In n notes -> UserWordNotes.userId n = "u1".
Proof.
  split; [reflexivity|]. split; [reflexivity|].
  destruct (listUserNotes_returns_only_own_notes
              (Sample.signed_in "u1") {| User.id := "u1" |}
              (run Sample.later_calls Sample.world2)
              eq_refl) as (notes & R & Own & _).
  exists notes. split; [exact R|]. split; [|exact Own].
  vm_compute in R. inversion R. reflexivity.
Defined.

(** ** addVariant *)

(** C6. addVariant throws NOT_FOUND and leaves the world as it was when no
    DictionaryEntry has the id [entryId]; when one has, it appends one new
    EntryVariants row under an unused id and rewrites no row of any
    table. *)
Theorem addVariant_checks_entry_then_inserts input w :
  (~ entry_exists (AddVariantInput.entryId input) (db w) ->
   addVariant input w = (Throw NOT_FOUND, w)) /\
  (entry_exists (AddVariantInput.entryId input) (db w) ->
   exists v w',
     addVariant input w = (Return (Some v), w') /\
     tEntryVariants (db w') = tEntryVariants (db w) ++ [v] /\
     ~ In (EntryVariants.id v) (map EntryVariants.id (tEntryVariants (db w))) /\
     EntryVariants.entryId v = AddVariantInput.entryId input /\
     EntryVariants.variant v = AddVariantInput.variant input /\
     EntryVariants.variantType v = AddVariantInput.variantType input /\
     tDictionaryEntries (db w') = tDictionaryEntries (db w) /\
     tUserWordNotes (db w') = tUserWordNotes (db w) /\
     tLookupHistory (db w') = tLookupHistory (db w)).
Proof.
  split; intros H.
  - apply find_entry_none in H.
    unfold addVariant, bind, select_DictionaryEntries.
    rewrite first_limit_where, H. reflexivity.
  - apply find_entry_some in H. destruct H as [e F].
    unfold addVariant, bind, select_DictionaryEntries.
    rewrite first_limit_where, F. run_handler.
    eexists. eexists. split; [reflexivity|]. simpl.
    split; [reflexivity|].
    split; [apply next_id_fresh|].
    destruct (AddVariantInput.variantType input); repeat split.
Qed.

Lemma addVariant_checks_entry_then_inserts_witness :
  (~ entry_exists 1 (db Sample.world0) /\
   addVariant Sample.plural Sample.world0
     = (Throw NOT_FOUND, Sample.world0)) /\
  (entry_exists 1 (db Sample.world1) /\
   exists v w',
     addVariant Sample.plural Sample.world1 = (Return (Some v), w') /\
     tEntryVariants (db w') = tEntryVariants (db Sample.world1) ++ [v]).
Proof.
  assert (N : ~ entry_exists 1 (db Sample.world0)).
  { intros (e & [] & _). }
  assert (Y : entry_exists 1 (db Sample.world1)).
  { eexists. split; [left; reflexivity | reflexivity]. }
  split; split.
  - exact N.
  - exact (proj1 (addVariant_checks_entry_then_inserts
                    Sample.plural Sample.world0) N).
  - exact Y.
  - destruct (proj2 (addVariant_checks_entry_then_inserts
                       Sample.plural Sample.world1) Y)
      as (v & w' & R & T & _).
    exists v, w'. split; [exact R | exact T].
Defined.

(** ** logLookup and the lookup history *)

Lemma references_entry_ok entryId d :
  references_entry entryId (tDictionaryEntries d) = true <->
  entry_reference_ok entryId d.
Proof.
  destruct entryId as [id|]; simpl; [|tauto].
  rewrite existsb_exists. unfold entry_exists. split.
  - intros (e & Hin & E). exists e. split; [exact Hin | now apply Z.eqb_eq].
  - intros (e & Hin & E). exists e. split; [exact Hin | now apply Z.eqb_eq].
Qed.

Lemma stored_given {A} (o : option A) : stored (given o) = o.
Proof. destruct o; reflexivity. Qed.

Lemma logLookup_signed_in input context u w :
  current_user context = Some u ->
  entry_reference_ok (LogLookupInput.entryId input) (db w) ->
  let h := LookupHistory.insert_row
      (next_id LookupHistory.id (tLookupHistory (db w)))
      {| LookupHistory.v_userId := User.id u;
         LookupHistory.v_term := LogLookupInput.term input;
         LookupHistory.v_language :=
           given (LogLookupInput.language input) ??! "en";
         LookupHistory.v_entryId := given (LogLookupInput.entryId input);
         LookupHistory.v_lookedAt := clock w (reads w);
         LookupHistory.v_source := given (LogLookupInput.source input);
         LookupHistory.v_context := given (LogLookupInput.context input) |} in
  logLookup input context w =
    (Return (Some h),
     {| db := {| tDictionaryEntries := tDictionaryEntries (db w);
                 tEntryVariants := tEntryVariants (db w);
                 tUserWordNotes := tUserWordNotes (db w);
                 tLookupHistory := tLookupHistory (db w) ++ [h] |};
        clock := clock w;
        reads := S (reads w) |}).
Proof.
  intros H Ok h. apply references_entry_ok in Ok.
  unfold logLookup, bind.
  rewrite (requireUser_signed_in context u w H).
  unfold newDate, insert_LookupHistory.
  cbn [db LookupHistory.entryId LookupHistory.insert_row
       LookupHistory.v_entryId].
  rewrite stored_given, Ok. reflexivity.
Qed.

(** A signed-in [logLookup] with the id of no stored entry: the insert
    throws after the clock was read, and nothing is written. *)
Lemma logLookup_dangling input context u w :
  current_user context = Some u ->
  ~ entry_reference_ok (LogLookupInput.entryId input) (db w) ->
  logLookup input context w =
    (Throw INTERNAL_SERVER_ERROR,
     {| db := db w; clock := clock w; reads := S (reads w) |}).
Proof.
  intros H No.
  assert (F : references_entry (LogLookupInput.entryId input)
                (tDictionaryEntries (db w)) = false).
  { destruct (references_entry _ _) eqn:E; [|reflexivity].
    exfalso. apply No. now apply references_entry_ok. }
  unfold logLookup, bind.
  rewrite (requireUser_signed_in context u w H).
  unfold newDate, insert_LookupHistory.
  cbn [db LookupHistory.entryId LookupHistory.insert_row
       LookupHistory.v_entryId].
  rewrite stored_given, F. reflexivity.
Qed.

Lemma entry_reference_ok_dec entryId d :
  {entry_reference_ok entryId d} + {~ entry_reference_ok entryId d}.
Proof.
  destruct (references_entry entryId (tDictionaryEntries d)) eqn:E.
  - left. now apply references_entry_ok.
  - right. intros H. apply references_entry_ok in H. congruence.
Qed.

(** *** Frame rules: what a handler leaves alone *)

Section Frame.
Context {T : Type} (proj : Db -> T).

Lemma keeps_ret {A} (a : A) : keeps proj (ret a).
Proof. intros w. reflexivity. Qed.

Lemma keeps_throw {A} code : keeps proj (@throw A code).
Proof. intros w. reflexivity. Qed.

Lemma keeps_newDate : keeps proj newDate.
Proof. intros w. reflexivity. Qed.

Lemma keeps_or_newDate x : keeps proj (or_newDate x).
Proof. destruct x; intros w; reflexivity. Qed.

Lemma keeps_bind {A B} (m : Handler A) (k : A -> Handler B) :
  keeps proj m -> (forall a, keeps proj (k a)) -> keeps proj (bind m k).
Proof.
  intros Hm Hk w. unfold after, bind.
  specialize (Hm w). unfold after in Hm.
  destruct (m w) as [[a|code] w1]; simpl in *.
  - rewrite <- Hm. apply Hk.
  - exact Hm.
Qed.

Lemma keeps_requireUser context : keeps proj (requireUser context).
Proof.
  unfold requireUser. destruct (optchain (locals context) user);
    intros w; reflexivity.
Qed.

Lemma keeps_select_DictionaryEntries p :
  keeps proj (select_DictionaryEntries p).
Proof. intros w. reflexivity. Qed.

Lemma keeps_select_UserWordNotes p : keeps proj (select_UserWordNotes p).
Proof. intros w. reflexivity. Qed.

Lemma keeps_select_LookupHistory p : keeps proj (select_LookupHistory p).
Proof. intros w. reflexivity. Qed.
End Frame.

Lemma history_insert_DictionaryEntries v :
  keeps tLookupHistory (insert_DictionaryEntries v).
Proof. intros w. reflexivity. Qed.

Lemma history_update_DictionaryEntries v p :
  keeps tLookupHistory (update_DictionaryEntries v p).
Proof. intros w. reflexivity. Qed.

Lemma history_insert_EntryVariants v :
  keeps tLookupHistory (insert_EntryVariants v).
Proof. intros w. reflexivity. Qed.

Lemma history_insert_UserWordNotes v :
  keeps tLookupHistory (insert_UserWordNotes v).
Proof. intros w. reflexivity. Qed.

Lemma history_update_UserWordNotes v p :
  keeps tLookupHistory (update_UserWordNotes v p).
Proof. intros w. reflexivity. Qed.

Create HintDb frame.
#[export] Hint Resolve keeps_ret keeps_throw keeps_newDate keeps_or_newDate
  keeps_requireUser keeps_select_DictionaryEntries
  keeps_select_UserWordNotes keeps_select_LookupHistory
  history_insert_DictionaryEntries history_update_DictionaryEntries
  history_insert_EntryVariants history_insert_UserWordNotes
  history_update_UserWordNotes : frame.

(** Walks through the binds and branches of a handler. *)
Ltac frame :=
  repeat first
    [ apply keeps_bind; [|intros ?]
    | match goal with
      | |- keeps _ (match ?x with _ => _ end) => destruct x
      | |- keeps _ (if ?b then _ else _) => destruct b
      end
    | solve [auto with frame] ].

Lemma history_upsertEntry input : keeps tLookupHistory (upsertEntry input).
Proof.
  unfold upsertEntry, upsertEntry_baseValues, upsertEntry_update,
    upsertEntry_insert. frame.
Qed.

Lemma history_addVariant input : keeps tLookupHistory (addVariant input).
Proof. unfold addVariant. frame. Qed.

Lemma history_saveUserNote input context :
  keeps tLookupHistory (saveUserNote input context).
Proof. unfold saveUserNote, saveUserNote_baseValues. frame. Qed.

Lemma history_listUserNotes context :
  keeps tLookupHistory (listUserNotes context).
Proof. unfold listUserNotes. frame. Qed.

Lemma history_listLookupHistory context :
  keeps tLookupHistory (listLookupHistory context).
Proof. unfold listLookupHistory. frame. Qed.

(** C9. A logLookup call that returns has an authenticated caller and
    appended exactly one LookupHistory row, under an unused id, with the
    caller's id, the input's term, the input's entryId and the input's
    language or "en" when it gives none, the rows already there being
    kept as they were.  With an authenticated caller it does return when
    the input's entryId is absent or is the id of a stored entry; when
    it is the id of no stored entry the insert breaks the reference of
    the table, the call throws and the database is as it was.  After any
    call of the six operations the table is the table before it followed
    by at most one row, so that no row is ever rewritten or removed. *)
Theorem logLookup_appends_and_history_is_append_only :
  (forall input context w r w',
     logLookup input context w = (Return r, w') ->
     exists u h,
       current_user context = Some u /\ r = Some h /\
       tLookupHistory (db w') = tLookupHistory (db w) ++ [h] /\
       ~ In (LookupHistory.id h)
            (map LookupHistory.id (tLookupHistory (db w))) /\
       LookupHistory.userId h = Some (User.id u) /\
       LookupHistory.term h = LogLookupInput.term input /\
       LookupHistory.language h =
         match LogLookupInput.language input with
         | Some l => l
         | None => "en"
         end /\
       LookupHistory.entryId h = LogLookupInput.entryId input /\
       entry_reference_ok (LogLookupInput.entryId input) (db w)) /\
  (forall input context u w,
     current_user context = Some u ->
     entry_reference_ok (LogLookupInput.entryId input) (db w) ->
     exists h w', logLookup input context w = (Return (Some h), w')) /\
  (forall input context u w,
     current_user context = Some u ->
     ~ entry_reference_ok (LogLookupInput.entryId input) (db w) ->
     outcome (logLookup input context) w = Throw INTERNAL_SERVER_ERROR /\
     db (after (logLookup input context) w) = db w) /\
  (forall call context w,
     exists added,
       tLookupHistory (db (server call context w))
         = tLookupHistory (db w) ++ added /\
       (List.length added <= 1)%nat).
Proof.
  split; [|split; [|split]].
  - intros input context w r w' H.
    destruct (current_user context) as [u|] eqn:U.
    + destruct (entry_reference_ok_dec (LogLookupInput.entryId input) (db w))
        as [Ok|No].
      * rewrite (logLookup_signed_in input context u w U Ok) in H.
        cbv zeta in H. inversion H; subst; clear H. simpl.
        exists u. eexists. split; [reflexivity|]. split; [reflexivity|].
        split; [reflexivity|]. split; [apply next_id_fresh|].
        simpl. split; [reflexivity|]. split; [reflexivity|].
        split; [destruct (LogLookupInput.language input); reflexivity|].
        split; [apply stored_given | exact Ok].
      * rewrite (logLookup_dangling input context u w U No) in H.
        discriminate.
    + destruct (unauthenticated_calls_refused_aux context w U) as [_ L].
      rewrite L in H. discriminate.
  - intros input context u w U Ok.
    rewrite (logLookup_signed_in input context u w U Ok). eauto.
  - intros input context u w U No. unfold outcome, after.
    rewrite (logLookup_dangling input context u w U No).
    split; reflexivity.
  - intros call context w.
    assert (K : forall A (h : Handler A), keeps tLookupHistory h ->
              exists added,
                tLookupHistory (db (after h w))
                  = tLookupHistory (db w) ++ added /\
                (List.length added <= 1)%nat).
    { intros A h Hk. exists []. rewrite app_nil_r.
      split; [apply Hk | simpl; lia]. }
    destruct call as [input|input|input| |input| ]; unfold server.
    + apply K, history_upsertEntry.
    + apply K, history_addVariant.
    + apply K, history_saveUserNote.
    + apply K, history_listUserNotes.
    + destruct (current_user context) as [u|] eqn:U.
      * unfold after.
        destruct (entry_reference_ok_dec
                    (LogLookupInput.entryId input) (db w)) as [Ok|No].
        -- rewrite (logLookup_signed_in input context u w U Ok). simpl.
           eexists. split; [reflexivity | simpl; lia].
        -- rewrite (logLookup_dangling input context u w U No). simpl.
           exists []. rewrite app_nil_r. split; [reflexivity | simpl; lia].
      * destruct (unauthenticated_calls_refused_aux context w U) as [_ L].
        unfold after. rewrite L. exists []. rewrite app_nil_r.
        split; [reflexivity | simpl; lia].
    + apply K, history_listLookupHistory.
Qed.

(** A lookup that names the stored entry 1 appends its row; a lookup that
    names the id 99 of no entry throws and writes nothing. *)
Lemma logLookup_appends_and_history_is_append_only_witness :
  (exists h w',
     logLookup Sample.looked_up_run (Sample.signed_in "u1") Sample.world1
       = (Return (Some h), w') /\
     tLookupHistory (db w') = tLookupHistory (db Sample.world1) ++ [h] /\
     LookupHistory.language h = "en" /\
     LookupHistory.entryId h = Some 1) /\
  ~ entry_reference_ok (LogLookupInput.entryId Sample.looked_up_nothing)
      (db Sample.world1) /\
  outcome (logLookup Sample.looked_up_nothing (Sample.signed_in "u1"))
    Sample.world1 = Throw INTERNAL_SERVER_ERROR /\
  db (after (logLookup Sample.looked_up_nothing (Sample.signed_in "u1"))
        Sample.world1) = db Sample.world1.
Proof.
  destruct logLookup_appends_and_history_is_append_only as (A & B & C & _).
  assert (Y : entry_reference_ok
                (LogLookupInput.entryId Sample.looked_up_run)
                (db Sample.world1)).
  { eexists. split; [left; reflexivity | reflexivity]. }
  assert (N : ~ entry_reference_ok
                  (LogLookupInput.entryId Sample.looked_up_nothing)
                  (db Sample.world1)).
  { intros (e & [<- | []] & E). discriminate E. }
  split; [|split; [exact N|]].
  - destruct (B Sample.looked_up_run (Sample.signed_in "u1")
                {| User.id := "u1" |} Sample.world1 eq_refl Y)
      as (h & w' & R).
    destruct (A _ _ _ _ _ R) as (u & h' & _ & E & T & _ & _ & _ & L & I & _).
    inversion E; subst h'.
    exists h, w'. split; [exact R|]. split; [exact T|].
    split; [exact L | exact I].
  - exact (C Sample.looked_up_nothing (Sample.signed_in "u1")
             {| User.id := "u1" |} Sample.world1 eq_refl N).
Defined.

(** ** upsertEntry *)

Lemma upsertEntry_baseValues_run input w :
  upsertEntry_baseValues input w =
    (Return
       {| DictionaryEntries.v_term := UpsertEntryInput.term input;
          DictionaryEntries.v_language :=
            given (UpsertEntryInput.language input) ??! "en";
          DictionaryEntries.v_lemma := given (UpsertEntryInput.lemma input);
          DictionaryEntries.v_payload :=
            given_json (UpsertEntryInput.payload input);
          DictionaryEntries.v_partOfSpeech :=
            given (UpsertEntryInput.partOfSpeech input);
          DictionaryEntries.v_fetchedAt :=
            match UpsertEntryInput.fetchedAt input with
            | Some d => d
            | None => clock w (reads w)
            end;
          DictionaryEntries.v_createdAt := clock w (created_reading input w);
          DictionaryEntries.v_updatedAt :=
            clock w (S (created_reading input w)) |},
     {| db := db w; clock := clock w;
        reads := S (S (created_reading input w)) |}).
Proof.
  unfold upsertEntry_baseValues, created_reading.
  destruct (UpsertEntryInput.fetchedAt input); reflexivity.
Qed.

Lemma upsertEntry_insert_run v w :
  let e := DictionaryEntries.insert_row
             (next_id DictionaryEntries.id (tDictionaryEntries (db w))) v in
  upsertEntry_insert v w =
    (Return (Some e),
     {| db := {| tDictionaryEntries := tDictionaryEntries (db w) ++ [e];
                 tEntryVariants := tEntryVariants (db w);
                 tUserWordNotes := tUserWordNotes (db w);
                 tLookupHistory := tLookupHistory (db w) |};
        clock := clock w; reads := reads w |}).
Proof. reflexivity. Qed.

Lemma upsertEntry_update_found id v w existing :
  find (fun r => Z.eqb (DictionaryEntries.id r) id)
       (tDictionaryEntries (db w)) = Some existing ->
  upsertEntry_update id v w =
    (Return (Some (DictionaryEntries.set_row v existing)),
     {| db := {| tDictionaryEntries :=
                   update_rows (DictionaryEntries.set_row v)
                     (fun r => Z.eqb (DictionaryEntries.id r) id)
                     (tDictionaryEntries (db w));
                 tEntryVariants := tEntryVariants (db w);
                 tUserWordNotes := tUserWordNotes (db w);
                 tLookupHistory := tLookupHistory (db w) |};
        clock := clock w; reads := reads w |}).
Proof.
  intros F. unfold upsertEntry_update, bind, select_DictionaryEntries.
  rewrite first_limit_where, F.
  unfold update_DictionaryEntries, ret.
  rewrite first_updated_rows, F. reflexivity.
Qed.

Lemma upsertEntry_update_missing id v w :
  find (fun r => Z.eqb (DictionaryEntries.id r) id)
       (tDictionaryEntries (db w)) = None ->
  upsertEntry_update id v w = (Throw NOT_FOUND, w).
Proof.
  intros F. unfold upsertEntry_update, bind, select_DictionaryEntries.
  rewrite first_limit_where, F. reflexivity.
Qed.

(** The three paths of [upsertEntry]. *)
Lemma upsertEntry_paths input w :
  upsertEntry input w =
    match upsertEntry_baseValues input w with
    | (Return v, w1) =>
        match UpsertEntryInput.id input with
        | Some id =>
            if truthy id then upsertEntry_update id v w1
            else upsertEntry_insert v w1
        | None => upsertEntry_insert v w1
        end
    | (Throw code, w1) => (Throw code, w1)
    end.
Proof.
  unfold upsertEntry, bind.
  destruct (upsertEntry_baseValues input w) as [[v|code] w1];
    [|reflexivity].
  destruct (UpsertEntryInput.id input) as [id|]; [|reflexivity].
  destruct (truthy id); reflexivity.
Qed.

(** C10. An input whose id is 0 takes the insert path: upsertEntry
    returns a new DictionaryEntry, appended to the table under an unused,
    positive id, exactly as it does for the same input without id; it
    neither looks up id 0 nor throws NOT_FOUND. *)
Theorem upsertEntry_id_zero_inserts input w :
  UpsertEntryInput.id input = Some 0 ->
  exists e w',
    upsertEntry input w = (Return (Some e), w') /\
    tDictionaryEntries (db w') = tDictionaryEntries (db w) ++ [e] /\
    ~ In (DictionaryEntries.id e)
         (map DictionaryEntries.id (tDictionaryEntries (db w))) /\
    0 < DictionaryEntries.id e /\
    DictionaryEntries.term e = UpsertEntryInput.term input /\
    upsertEntry input w =
      upsertEntry
        {| UpsertEntryInput.id := None;
           UpsertEntryInput.term := UpsertEntryInput.term input;
           UpsertEntryInput.language := UpsertEntryInput.language input;
           UpsertEntryInput.lemma := UpsertEntryInput.lemma input;
           UpsertEntryInput.payload := UpsertEntryInput.payload input;
           UpsertEntryInput.partOfSpeech :=
             UpsertEntryInput.partOfSpeech input;
           UpsertEntryInput.fetchedAt := UpsertEntryInput.fetchedAt input |}
        w.
Proof.
  intros Hid. rewrite !upsertEntry_paths, !upsertEntry_baseValues_run.
  rewrite Hid. cbn [truthy Z.eqb negb UpsertEntryInput.id].
  rewrite upsertEntry_insert_run. cbv zeta.
  eexists. eexists. split; [reflexivity|].
  cbn [db tDictionaryEntries DictionaryEntries.id DictionaryEntries.term
       DictionaryEntries.insert_row DictionaryEntries.v_term].
  split; [reflexivity|]. split; [apply next_id_fresh|].
  split; [apply next_id_positive|]. split; reflexivity.
Qed.

Lemma upsertEntry_id_zero_inserts_witness :
  UpsertEntryInput.id (Sample.run_lemma 0) = Some 0 /\
  exists e w',
    upsertEntry (Sample.run_lemma 0) Sample.world1 = (Return (Some e), w') /\
    tDictionaryEntries (db w')
      = tDictionaryEntries (db Sample.world1) ++ [e].
Proof.
  split; [reflexivity|].
  destruct (upsertEntry_id_zero_inserts (Sample.run_lemma 0) Sample.world1
              eq_refl) as (e & w' & R & T & _).
  exists e, w'. split; [exact R | exact T].
Defined.

(** C4, as stated, fails: on a clock that advances between two readings,
    the entry inserted for an input without id has a [createdAt] that is
    not its [updatedAt]. *)
Lemma upsertEntry_insert_createdAt_before_updatedAt :
  UpsertEntryInput.id Sample.run_fr = None /\
  UpsertEntryInput.term Sample.run_fr <> "" /\
  exists e,
    outcome (upsertEntry Sample.run_fr) Sample.world0 = Return (Some e) /\
    DictionaryEntries.term e = "run" /\
    DictionaryEntries.createdAt e = 101 /\
    DictionaryEntries.updatedAt e = 102 /\
    DictionaryEntries.createdAt e <> DictionaryEntries.updatedAt e.
Proof.
  split; [reflexivity|]. split; [discriminate|].
  eexists. split; [reflexivity|]. simpl.
  repeat split; discriminate.
Qed.

(** C4, amended. For an input without id, upsertEntry appends one new
    DictionaryEntry under an unused id and rewrites no row; its term is
    the input's term; its createdAt and its updatedAt are two successive
    readings of the clock, createdAt first, so they are equal when the
    clock did not advance between the two and createdAt is no later than
    updatedAt on a clock that never runs backwards. *)
Theorem upsertEntry_without_id_inserts input w :
  UpsertEntryInput.id input = None ->
  exists e w',
    upsertEntry input w = (Return (Some e), w') /\
    tDictionaryEntries (db w') = tDictionaryEntries (db w) ++ [e] /\
    ~ In (DictionaryEntries.id e)
         (map DictionaryEntries.id (tDictionaryEntries (db w))) /\
    DictionaryEntries.term e = UpsertEntryInput.term input /\
    DictionaryEntries.createdAt e = clock w (created_reading input w) /\
    DictionaryEntries.updatedAt e = clock w (S (created_reading input w)) /\
    (clock w (S (created_reading input w)) = clock w (created_reading input w)
     -> DictionaryEntries.createdAt e = DictionaryEntries.updatedAt e) /\
    (monotone (clock w) ->
     DictionaryEntries.createdAt e <= DictionaryEntries.updatedAt e).
Proof.
  intros Hid. rewrite upsertEntry_paths, upsertEntry_baseValues_run, Hid.
  rewrite upsertEntry_insert_run. cbv zeta.
  eexists. eexists. split; [reflexivity|].
  cbn [db tDictionaryEntries DictionaryEntries.id DictionaryEntries.term
       DictionaryEntries.createdAt DictionaryEntries.updatedAt
       DictionaryEntries.insert_row DictionaryEntries.v_term
       DictionaryEntries.v_createdAt DictionaryEntries.v_updatedAt].
  split; [reflexivity|]. split; [apply next_id_fresh|].
  split; [reflexivity|]. split; [reflexivity|]. split; [reflexivity|].
  split; [intros E; symmetry; exact E | intros M; apply M].
Qed.

Lemma upsertEntry_without_id_inserts_witness :
  UpsertEntryInput.id Sample.run_fr = None /\
  exists e w',
    upsertEntry Sample.run_fr Sample.world0 = (Return (Some e), w') /\
    tDictionaryEntries (db w') = [e] /\
    DictionaryEntries.term e = "run" /\
    DictionaryEntries.createdAt e <= DictionaryEntries.updatedAt e.
Proof.
  split; [reflexivity|].
  destruct (upsertEntry_without_id_inserts Sample.run_fr Sample.world0
              eq_refl) as (e & w' & R & T & _ & N & _ & _ & _ & M).
  exists e, w'. split; [exact R|]. split; [exact T|]. split; [exact N|].
  apply M. intros n. unfold Sample.world0. cbn [clock].
  unfold Sample.ticking. lia.
Defined.

(** On a clock that stands still the two timestamps of an inserted entry
    are equal. *)
Lemma upsertEntry_insert_frozen_clock input d n :
  UpsertEntryInput.id input = None ->
  exists e,
    outcome (upsertEntry input)
      {| db := d; clock := Sample.frozen; reads := n |} = Return (Some e) /\
    DictionaryEntries.createdAt e = DictionaryEntries.updatedAt e.
Proof.
  intros Hid. unfold outcome.
  rewrite upsertEntry_paths, upsertEntry_baseValues_run, Hid.
  rewrite upsertEntry_insert_run. cbv zeta.
  eexists. split; reflexivity.
Qed.

(** C5, as stated, fails: the id 0 is present in the input and no entry
    has it, yet upsertEntry returns an entry and the store has changed. *)
Lemma upsertEntry_unknown_id_zero_is_inserted :
  UpsertEntryInput.id (Sample.run_lemma 0) = Some 0 /\
  ~ entry_exists 0 (db Sample.world0) /\
  (exists e,
     outcome (upsertEntry (Sample.run_lemma 0)) Sample.world0
       = Return (Some e)) /\
  outcome (upsertEntry (Sample.run_lemma 0)) Sample.world0
    <> Throw NOT_FOUND /\
  tDictionaryEntries (db Sample.world0) = [] /\
  List.length
    (tDictionaryEntries
       (db (after (upsertEntry (Sample.run_lemma 0)) Sample.world0))) = 1%nat.
Proof.
  split; [reflexivity|].
  split; [intros (e & [] & _)|].
  split; [eexists; reflexivity|].
  split; [discriminate|].
  split; reflexivity.
Qed.

(** C5, amended. For an input whose id is present, is not 0 and is the id
    of no DictionaryEntry, upsertEntry throws NOT_FOUND and leaves the
    database as it was: nothing is inserted and nothing is rewritten. *)
Theorem upsertEntry_unknown_id_not_found input id w :
  UpsertEntryInput.id input = Some id ->
  id <> 0 ->
  ~ entry_exists id (db w) ->
  outcome (upsertEntry input) w = Throw NOT_FOUND /\
  db (after (upsertEntry input) w) = db w.
Proof.
  intros Hid Hnz Hno. unfold outcome, after.
  rewrite upsertEntry_paths, upsertEntry_baseValues_run, Hid.
  replace (truthy id) with true
    by (unfold truthy; destruct (Z.eqb_spec id 0); [contradiction|reflexivity]).
  rewrite upsertEntry_update_missing by (apply find_entry_none; exact Hno).
  split; reflexivity.
Qed.

Lemma upsertEntry_unknown_id_not_found_witness :
  UpsertEntryInput.id (Sample.run_lemma 7) = Some 7 /\
  7 <> 0 /\
  ~ entry_exists 7 (db Sample.world1) /\
  outcome (upsertEntry (Sample.run_lemma 7)) Sample.world1
    = Throw NOT_FOUND /\
  db (after (upsertEntry (Sample.run_lemma 7)) Sample.world1)
    = db Sample.world1.
Proof.
  assert (N : ~ entry_exists 7 (db Sample.world1)).
  { intros (e & [<- | []] & E). discriminate E. }
  split; [reflexivity|]. split; [discriminate|]. split; [exact N|].
  apply (upsertEntry_unknown_id_not_found (Sample.run_lemma 7) 7
           Sample.world1 eq_refl); [discriminate | exact N].
Defined.

(** What the update path of upsertEntry writes: for an input whose id is
    not 0 and is the id of an entry, the first such entry rewritten by
    [set]. *)
Lemma upsertEntry_known_id_updates input id w existing :
  UpsertEntryInput.id input = Some id ->
  id <> 0 ->
  find (fun r => Z.eqb (DictionaryEntries.id r) id)
       (tDictionaryEntries (db w)) = Some existing ->
  exists v w',
    upsertEntry_baseValues input w = (Return v, w') /\
    outcome (upsertEntry input) w
      = Return (Some (DictionaryEntries.set_row v existing)) /\
    tDictionaryEntries (db (after (upsertEntry input) w))
      = update_rows (DictionaryEntries.set_row v)
          (fun r => Z.eqb (DictionaryEntries.id r) id)
          (tDictionaryEntries (db w)).
Proof.
  intros Hid Hnz F. unfold outcome, after.
  rewrite upsertEntry_paths, upsertEntry_baseValues_run, Hid.
  replace (truthy id) with true
    by (unfold truthy; destruct (Z.eqb_spec id 0); [contradiction|reflexivity]).
  rewrite (upsertEntry_update_found _ _ _ existing) by exact F.
  eexists. eexists. split; [reflexivity|]. split; reflexivity.
Qed.

(** What the update path keeps: the fields
    lemma, payload and partOfSpeech keep their prior value when the input
    omits them, the id is kept, and updatedAt is a reading of the clock
    taken during the call, later than the prior updatedAt whenever that
    reading is. *)
Lemma upsertEntry_update_keeps_omitted_optional_fields input id w existing :
  UpsertEntryInput.id input = Some id ->
  id <> 0 ->
  find (fun r => Z.eqb (DictionaryEntries.id r) id)
       (tDictionaryEntries (db w)) = Some existing ->
  exists e,
    outcome (upsertEntry input) w = Return (Some e) /\
    DictionaryEntries.id e = id /\
    DictionaryEntries.term e = UpsertEntryInput.term input /\
    (UpsertEntryInput.lemma input = None ->
     DictionaryEntries.lemma e = DictionaryEntries.lemma existing) /\
    (UpsertEntryInput.payload input = None ->
     DictionaryEntries.payload e = DictionaryEntries.payload existing) /\
    (UpsertEntryInput.partOfSpeech input = None ->
     DictionaryEntries.partOfSpeech e
       = DictionaryEntries.partOfSpeech existing) /\
    DictionaryEntries.updatedAt e = clock w (S (created_reading input w)) /\
    (DictionaryEntries.updatedAt existing
       < clock w (S (created_reading input w)) ->
     DictionaryEntries.updatedAt existing < DictionaryEntries.updatedAt e).
Proof.
  intros Hid Hnz F.
  destruct (upsertEntry_known_id_updates input id w existing Hid Hnz F)
    as (v & w' & B & R & _).
  rewrite upsertEntry_baseValues_run in B. inversion B; subst v; clear B.
  eexists. split; [exact R|]. simpl.
  split.
  { apply find_some in F. destruct F as [_ E].
    apply Z.eqb_eq in E. exact E. }
  split; [reflexivity|].
  split; [intros ->; reflexivity|].
  split; [intros ->; reflexivity|].
  split; [intros ->; reflexivity|].
  split; [reflexivity | auto].
Qed.

(** C1 at a failing input.  The store holds the entry 1, "run", of
    language "fr", created at 101; updating it with
    [{id: 1, term: "run", lemma: "run"}], which omits language, returns
    an entry of language "en", created at 104: the omitted language is
    replaced by the default and createdAt is overwritten. *)
Theorem upsertEntry_update_resets_language_and_createdAt :
  exists prior e,
    tDictionaryEntries (db Sample.world1) = [prior] /\
    UpsertEntryInput.id (Sample.run_lemma 1)
      = Some (DictionaryEntries.id prior) /\
    UpsertEntryInput.language (Sample.run_lemma 1) = None /\
    outcome (upsertEntry (Sample.run_lemma 1)) Sample.world1
      = Return (Some e) /\
    tDictionaryEntries (db (after (upsertEntry (Sample.run_lemma 1))
                                  Sample.world1)) = [e] /\
    DictionaryEntries.language prior = "fr" /\
    DictionaryEntries.language e = "en" /\
    DictionaryEntries.createdAt prior = 101 /\
    DictionaryEntries.createdAt e = 104.
Proof.
  eexists. eexists. split; [reflexivity|]. simpl.
  repeat split.
Qed.

(** ** The merge of an input into the record found *)

Lemma saveUserNote_baseValues_run input u existing w :
  saveUserNote_baseValues input u existing w =
    (Return
       {| UserWordNotes.v_entryId := SaveUserNoteInput.entryId input;
          UserWordNotes.v_userId := User.id u;
          UserWordNotes.v_tags :=
            given (SaveUserNoteInput.tags input)
            ?? optchain existing (fun e => column (UserWordNotes.tags e));
          UserWordNotes.v_note :=
            given (SaveUserNoteInput.note input)
            ?? optchain existing (fun e => column (UserWordNotes.note e));
          UserWordNotes.v_exampleSentence :=
            given (SaveUserNoteInput.exampleSentence input)
            ?? optchain existing
                 (fun e => column (UserWordNotes.exampleSentence e));
          UserWordNotes.v_isStarred :=
            given (SaveUserNoteInput.isStarred input)
            ?? optchain existing (fun e => val (UserWordNotes.isStarred e))
            ??! false;
          UserWordNotes.v_familiarity :=
            given (SaveUserNoteInput.familiarity input)
            ?? optchain existing (fun e => val (UserWordNotes.familiarity e))
            ??! Fnew;
          UserWordNotes.v_createdAt :=
            match existing with
            | Some e => UserWordNotes.createdAt e
            | None => clock w (reads w)
            end;
          UserWordNotes.v_updatedAt :=
            match existing with
            | Some _ => clock w (reads w)
            | None => clock w (S (reads w))
            end |},
     {| db := db w; clock := clock w;
        reads := match existing with
                 | Some _ => S (reads w)
                 | None => S (S (reads w))
                 end |}).
Proof.
  unfold saveUserNote_baseValues. destruct existing; reflexivity.
Qed.

Lemma merge_again_optional {A} (x : option A) (m : Maybe A) old :
  assign (given x ?? column (stored (given x ?? m))) old
    = stored (given x ?? m).
Proof. destruct x, m; reflexivity. Qed.

Lemma merge_again_optional_set {A} (x : option A) (prior old old' : option A) :
  assign (given x ?? column (assign (given x ?? column prior) old)) old'
    = assign (given x ?? column prior) old.
Proof. destruct x, prior; reflexivity. Qed.

Lemma merge_again_default {A} (x : option A) (m : Maybe A) (d : A) :
  given x ?? val (given x ?? m ??! d) ??! d = given x ?? m ??! d.
Proof. destruct x, m; reflexivity. Qed.

(** C2, as stated, fails for upsertEntry: merging the same input, which
    gives no fetchedAt, a second time into the record the first merge
    produced yields a record with another fetchedAt, a field that is not
    updatedAt; so does calling upsertEntry twice with the same input and
    the id of a stored entry. *)
Lemma upsertEntry_merge_again_restamps_fetchedAt :
  (exists r1 w1 r2 w2,
     upsertEntry_merge None Sample.run_fr 1 Sample.world0 = (Return r1, w1) /\
     upsertEntry_merge (Some r1) Sample.run_fr 2 w1 = (Return r2, w2) /\
     DictionaryEntries.fetchedAt r1 = 100 /\
     DictionaryEntries.fetchedAt r2 = 103 /\
     DictionaryEntries.fetchedAt r2 <> DictionaryEntries.fetchedAt r1) /\
  (exists r1 w1 r2 w2,
     upsertEntry (Sample.run_lemma 1) Sample.world1 = (Return (Some r1), w1) /\
     upsertEntry (Sample.run_lemma 1) w1 = (Return (Some r2), w2) /\
     DictionaryEntries.fetchedAt r1 = 103 /\
     DictionaryEntries.fetchedAt r2 = 106 /\
     DictionaryEntries.fetchedAt r2 <> DictionaryEntries.fetchedAt r1).
Proof.
  split.
  - eexists. eexists. eexists. eexists.
    split; [reflexivity|]. split; [reflexivity|]. simpl.
    repeat split; discriminate.
  - eexists. eexists. eexists. eexists.
    split; [reflexivity|]. split; [reflexivity|]. simpl.
    repeat split; discriminate.
Qed.

(** Merging the same input again into the note a merge produced changes
    updatedAt and nothing else. *)
Lemma saveUserNote_merge_again existing input user fresh w :
  exists r1 w1,
    saveUserNote_merge existing input user fresh w = (Return r1, w1) /\
    forall fresh' w',
    exists r2 w2,
      saveUserNote_merge (Some r1) input user fresh' w' = (Return r2, w2) /\
      r2 = with_updatedAt (UserWordNotes.updatedAt r2) r1.
Proof.
  unfold saveUserNote_merge, bind.
  rewrite saveUserNote_baseValues_run. unfold ret.
  eexists. eexists. split; [reflexivity|].
  intros fresh' w'. rewrite saveUserNote_baseValues_run.
  eexists. eexists. split; [reflexivity|].
  unfold with_updatedAt, UserWordNotes.set_row.
  destruct existing as [e|];
    cbn [UserWordNotes.id UserWordNotes.userId UserWordNotes.entryId
         UserWordNotes.tags UserWordNotes.note
         UserWordNotes.exampleSentence UserWordNotes.isStarred
         UserWordNotes.familiarity UserWordNotes.createdAt
         UserWordNotes.updatedAt UserWordNotes.insert_row
         UserWordNotes.set_row
         UserWordNotes.v_userId UserWordNotes.v_entryId
         UserWordNotes.v_tags UserWordNotes.v_note
         UserWordNotes.v_exampleSentence UserWordNotes.v_isStarred
         UserWordNotes.v_familiarity UserWordNotes.v_createdAt
         UserWordNotes.v_updatedAt optchain].
  - rewrite !merge_again_optional_set, !merge_again_default. reflexivity.
  - rewrite !merge_again_optional, !merge_again_default. reflexivity.
Qed.

(** What upsertEntry returns is the merge of its input into the entry it
    found: on the update path, into the first entry of that id; on the
    insert path, into none, under the next id of the table. *)
Lemma upsertEntry_returns_merge input w :
  (forall id existing,
     UpsertEntryInput.id input = Some id -> id <> 0 ->
     find (fun r => Z.eqb (DictionaryEntries.id r) id)
          (tDictionaryEntries (db w)) = Some existing ->
     exists r wm,
       upsertEntry_merge (Some existing) input 0 w = (Return r, wm) /\
       outcome (upsertEntry input) w = Return (Some r)) /\
  (UpsertEntryInput.id input = None \/ UpsertEntryInput.id input = Some 0 ->
   exists r wm,
     upsertEntry_merge None input
       (next_id DictionaryEntries.id (tDictionaryEntries (db w))) w
       = (Return r, wm) /\
     outcome (upsertEntry input) w = Return (Some r)).
Proof.
  split.
  - intros id existing Hid Hnz F.
    destruct (upsertEntry_known_id_updates input id w existing Hid Hnz F)
      as (v & w' & B & R & _).
    unfold upsertEntry_merge, bind. rewrite B. unfold ret.
    eexists. eexists. split; [reflexivity | exact R].
  - intros Hid. unfold upsertEntry_merge, bind, outcome.
    rewrite upsertEntry_paths, upsertEntry_baseValues_run. unfold ret.
    eexists. eexists. split; [reflexivity|].
    destruct Hid as [-> | ->]; reflexivity.
Qed.

(** C2, amended. The merge of saveUserNote and the merge of upsertEntry
    always produce a record, and merging the same input a second time, at
    any later state of the clock, into the record the first merge
    produced gives: for saveUserNote, the first record in every field
    except updatedAt; for upsertEntry, the first record in the fields id,
    term, language, lemma, payload and partOfSpeech, and in fetchedAt
    when the input gives it, fetchedAt being otherwise the time of the
    second merge. *)
Theorem merge_again_changes_timestamps_only :
  (forall existing input user fresh w,
   exists r1 w1,
     saveUserNote_merge existing input user fresh w = (Return r1, w1) /\
     forall fresh' w',
     exists r2 w2,
       saveUserNote_merge (Some r1) input user fresh' w' = (Return r2, w2) /\
       r2 = with_updatedAt (UserWordNotes.updatedAt r2) r1) /\
  (forall existing input fresh w,
   exists r1 w1,
     upsertEntry_merge existing input fresh w = (Return r1, w1) /\
     forall fresh' w',
     exists r2 w2,
       upsertEntry_merge (Some r1) input fresh' w' = (Return r2, w2) /\
       DictionaryEntries.id r2 = DictionaryEntries.id r1 /\
       DictionaryEntries.term r2 = DictionaryEntries.term r1 /\
       DictionaryEntries.language r2 = DictionaryEntries.language r1 /\
       DictionaryEntries.lemma r2 = DictionaryEntries.lemma r1 /\
       DictionaryEntries.payload r2 = DictionaryEntries.payload r1 /\
       DictionaryEntries.partOfSpeech r2
         = DictionaryEntries.partOfSpeech r1 /\
       DictionaryEntries.fetchedAt r2 =
         match UpsertEntryInput.fetchedAt input with
         | Some _ => DictionaryEntries.fetchedAt r1
         | None => clock w' (reads w')
         end).
Proof.
  split.
  - intros existing input user fresh w.
    apply saveUserNote_merge_again.
  - intros existing input fresh w.
    unfold upsertEntry_merge, bind.
    rewrite upsertEntry_baseValues_run. unfold ret.
    eexists. eexists. split; [reflexivity|].
    intros fresh' w'. rewrite upsertEntry_baseValues_run.
    eexists. eexists. split; [reflexivity|].
    destruct existing as [e|]; simpl;
      (repeat split;
       [ destruct (UpsertEntryInput.lemma input); reflexivity
       | destruct (UpsertEntryInput.payload input) as [[]|]; reflexivity
       | destruct (UpsertEntryInput.partOfSpeech input); reflexivity
       | destruct (UpsertEntryInput.fetchedAt input); reflexivity ]).
Qed.

(** ** saveUserNote *)

Section UniqueRows.
Context {row : Type} (id : row -> Z).
Implicit Types (p q : row -> bool) (rows : list row).

Lemma where_unique_id rows e :
  NoDup (map id rows) -> In e rows ->
  where_ (fun r => Z.eqb (id r) (id e)) rows = [e].
Proof.
  unfold where_. induction rows as [|x rows IH]; simpl; [tauto|].
  intros ND [-> | Hin]; inversion ND as [|? ? Hx ND']; subst.
  - rewrite Z.eqb_refl. f_equal.
    apply where_none.
    intros r Hr. apply Z.eqb_neq. intros E. apply Hx.
    rewrite <- E. now apply in_map.
  - destruct (Z.eqb_spec (id x) (id e)) as [E|_]; [|now apply IH].
    exfalso. apply Hx. rewrite E. now apply in_map.
Qed.

Lemma find_unique_id rows e :
  NoDup (map id rows) -> In e rows ->
  find (fun r => Z.eqb (id r) (id e)) rows = Some e.
Proof.
  intros ND Hin. rewrite find_where, (where_unique_id rows e ND Hin).
  reflexivity.
Qed.

Lemma where_update_rows (set : row -> row) p q rows :
  (forall r, In r rows -> p r = true -> q (set r) = true) ->
  (forall r, In r rows -> p r = false -> q r = false) ->
  where_ q (update_rows set p rows) = map set (where_ p rows).
Proof.
  unfold where_, update_rows.
  induction rows as [|x rows IH]; simpl; intros H1 H0; [reflexivity|].
  destruct (p x) eqn:P.
  - rewrite (H1 x (or_introl eq_refl) P). simpl. f_equal.
    apply IH; intros r Hr; [apply H1 | apply H0]; now right.
  - rewrite (H0 x (or_introl eq_refl) P).
    apply IH; intros r Hr; [apply H1 | apply H0]; now right.
Qed.

Lemma where_update_rows_length (set : row -> row) p q rows :
  (forall r, p r = true -> q (set r) = false) ->
  (List.length (where_ q (update_rows set p rows))
   <= List.length (where_ q rows))%nat.
Proof.
  unfold where_, update_rows. intros H.
  induction rows as [|x rows IH]; simpl; [lia|].
  destruct (p x) eqn:P.
  - rewrite (H x P). destruct (q x); simpl; lia.
  - destruct (q x); simpl; lia.
Qed.

Lemma where_single_of_find q rows e :
  find q rows = Some e ->
  (List.length (where_ q rows) <= 1)%nat ->
  where_ q rows = [e].
Proof.
  rewrite find_where. destruct (where_ q rows) as [|x [|y l]]; simpl;
    intros F L; inversion F; subst; [reflexivity | lia].
Qed.
End UniqueRows.

Lemma same_pair_true entryId userId r :
  same_pair entryId userId r = true <->
  UserWordNotes.entryId r = entryId /\ UserWordNotes.userId r = userId.
Proof.
  unfold same_pair. rewrite andb_true_iff, Z.eqb_eq, String.eqb_eq. tauto.
Qed.

Lemma same_pair_other entryId userId entryId' userId' r :
  same_pair entryId userId r = true ->
  (entryId', userId') <> (entryId, userId) ->
  same_pair entryId' userId' r = false.
Proof.
  intros H N. destruct (same_pair entryId' userId' r) eqn:E; [|reflexivity].
  apply same_pair_true in H. apply same_pair_true in E.
  destruct H as [<- <-], E as [<- <-]. now contradiction N.
Qed.

Lemma pair_eq_dec (a b : Z * string) : {a = b} + {a <> b}.
Proof. decide equality; [apply string_dec | apply Z.eq_dec]. Qed.

(** saveUserNote for an authenticated caller and a stored entry, when the
    caller has a note for the entry: the note found is rewritten. *)
Lemma saveUserNote_found input context u w entry e :
  current_user context = Some u ->
  find (fun r => Z.eqb (DictionaryEntries.id r)
                       (SaveUserNoteInput.entryId input))
       (tDictionaryEntries (db w)) = Some entry ->
  find (same_pair (SaveUserNoteInput.entryId input) (User.id u))
       (tUserWordNotes (db w)) = Some e ->
  exists v w1,
    saveUserNote_baseValues input u (Some e) w = (Return v, w1) /\
    saveUserNote input context w =
      (Return
         (option_map (UserWordNotes.set_row v)
            (find (fun r => Z.eqb (UserWordNotes.id r) (UserWordNotes.id e))
                  (tUserWordNotes (db w)))),
       {| db := {| tDictionaryEntries := tDictionaryEntries (db w);
                   tEntryVariants := tEntryVariants (db w);
                   tUserWordNotes :=
                     update_rows (UserWordNotes.set_row v)
                       (fun r => Z.eqb (UserWordNotes.id r)
                                       (UserWordNotes.id e))
                       (tUserWordNotes (db w));
                   tLookupHistory := tLookupHistory (db w) |};
          clock := clock w1; reads := reads w1 |}).
Proof.
  intros U F N. unfold saveUserNote, bind.
  rewrite (requireUser_signed_in context u w U).
  unfold select_DictionaryEntries. rewrite first_limit_where, F.
  unfold select_UserWordNotes. rewrite first_limit_where, N.
  rewrite saveUserNote_baseValues_run.
  eexists. eexists. split; [reflexivity|].
  unfold update_UserWordNotes, ret. rewrite first_updated_rows.
  reflexivity.
Qed.

(** ... and when the caller has none: a note is inserted. *)
Lemma saveUserNote_first input context u w entry :
  current_user context = Some u ->
  find (fun r => Z.eqb (DictionaryEntries.id r)
                       (SaveUserNoteInput.entryId input))
       (tDictionaryEntries (db w)) = Some entry ->
  find (same_pair (SaveUserNoteInput.entryId input) (User.id u))
       (tUserWordNotes (db w)) = None ->
  exists v w1,
    saveUserNote_baseValues input u None w = (Return v, w1) /\
    let n := UserWordNotes.insert_row
               (next_id UserWordNotes.id (tUserWordNotes (db w))) v in
    saveUserNote input context w =
      (Return (Some n),
       {| db := {| tDictionaryEntries := tDictionaryEntries (db w);
                   tEntryVariants := tEntryVariants (db w);
                   tUserWordNotes := tUserWordNotes (db w) ++ [n];
                   tLookupHistory := tLookupHistory (db w) |};
          clock := clock w1; reads := reads w1 |}).
Proof.
  intros U F N. unfold saveUserNote, bind.
  rewrite (requireUser_signed_in context u w U).
  unfold select_DictionaryEntries. rewrite first_limit_where, F.
  unfold select_UserWordNotes. rewrite first_limit_where, N.
  rewrite saveUserNote_baseValues_run.
  eexists. eexists. split; [reflexivity|]. reflexivity.
Qed.

Lemma notes_ok_insert notes v :
  notes_ok notes ->
  where_ (same_pair (UserWordNotes.v_entryId v) (UserWordNotes.v_userId v))
         notes = [] ->
  notes_ok
    (notes ++ [UserWordNotes.insert_row (next_id UserWordNotes.id notes) v]).
Proof.
  intros [ND U] E. split.
  - rewrite map_app. apply NoDup_app; [exact ND | |].
    + constructor; [intros [] | constructor].
    + intros a Ha [<- | []]. simpl in Ha.
      now apply (next_id_fresh UserWordNotes.id notes).
  - intros entryId userId. unfold where_. rewrite filter_app, length_app.
    destruct (pair_eq_dec (entryId, userId)
                (UserWordNotes.v_entryId v, UserWordNotes.v_userId v))
      as [P|P].
    + inversion P; subst. unfold where_ in E. rewrite E. simpl.
      destruct (same_pair _ _ _); simpl; lia.
    + assert (S : same_pair entryId userId
                    (UserWordNotes.insert_row
                       (next_id UserWordNotes.id notes) v) = false).
      { apply (same_pair_other (UserWordNotes.v_entryId v)
                 (UserWordNotes.v_userId v)); [|exact P].
        apply same_pair_true. split; reflexivity. }
      simpl. rewrite S. simpl. specialize (U entryId userId).
      unfold where_ in U. lia.
Qed.

Lemma notes_ok_update notes v e :
  notes_ok notes ->
  In e notes ->
  same_pair (UserWordNotes.v_entryId v) (UserWordNotes.v_userId v) e = true ->
  notes_ok
    (update_rows (UserWordNotes.set_row v)
       (fun r => Z.eqb (UserWordNotes.id r) (UserWordNotes.id e)) notes) /\
  where_ (same_pair (UserWordNotes.v_entryId v) (UserWordNotes.v_userId v))
    (update_rows (UserWordNotes.set_row v)
       (fun r => Z.eqb (UserWordNotes.id r) (UserWordNotes.id e)) notes)
    = [UserWordNotes.set_row v e].
Proof.
  intros [ND U] Hin He.
  assert (Own : forall r,
    same_pair (UserWordNotes.v_entryId v) (UserWordNotes.v_userId v)
      (UserWordNotes.set_row v r) = true).
  { intros r. apply same_pair_true. split; reflexivity. }
  assert (W : where_
      (same_pair (UserWordNotes.v_entryId v) (UserWordNotes.v_userId v))
      (update_rows (UserWordNotes.set_row v)
         (fun r => Z.eqb (UserWordNotes.id r) (UserWordNotes.id e)) notes)
      = [UserWordNotes.set_row v e]).
  { rewrite where_update_rows.
    - rewrite (where_unique_id UserWordNotes.id notes e ND Hin). reflexivity.
    - intros r _ _. apply Own.
    - intros r Hr Hne.
      destruct (same_pair _ _ r) eqn:Q; [|reflexivity].
      assert (In r (where_ (same_pair (UserWordNotes.v_entryId v)
                              (UserWordNotes.v_userId v)) notes))
        by (apply filter_In; auto).
      assert (In e (where_ (same_pair (UserWordNotes.v_entryId v)
                              (UserWordNotes.v_userId v)) notes))
        by (apply filter_In; auto).
      specialize (U (UserWordNotes.v_entryId v) (UserWordNotes.v_userId v)).
      destruct (where_ _ notes) as [|x [|y l]]; simpl in *; try lia.
      assert (r = e) by (intuition congruence). subst r.
      rewrite Z.eqb_refl in Hne. discriminate. }
  split; [split|exact W].
  - rewrite (update_rows_ids UserWordNotes.id); [exact ND | reflexivity].
  - intros entryId userId.
    destruct (pair_eq_dec (entryId, userId)
                (UserWordNotes.v_entryId v, UserWordNotes.v_userId v))
      as [P|P].
    + inversion P; subst. rewrite W. simpl. lia.
    + etransitivity; [apply where_update_rows_length | apply U].
      intros r _.
      apply (same_pair_other (UserWordNotes.v_entryId v)
               (UserWordNotes.v_userId v)); [apply Own | exact P].
Qed.

(** One call of saveUserNote by an authenticated caller for a stored
    entry: it returns the merge of the input into the caller's note for
    the entry, keeps the entries, keeps the notes well formed, and leaves
    that record as the caller's only note for the entry. *)
Lemma saveUserNote_step input context u w :
  current_user context = Some u ->
  entry_exists (SaveUserNoteInput.entryId input) (db w) ->
  notes_ok (tUserWordNotes (db w)) ->
  exists n w',
    saveUserNote input context w = (Return (Some n), w') /\
    (exists wm,
       saveUserNote_merge
         (find (same_pair (SaveUserNoteInput.entryId input) (User.id u))
               (tUserWordNotes (db w)))
         input u (next_id UserWordNotes.id (tUserWordNotes (db w))) w
       = (Return n, wm)) /\
    tDictionaryEntries (db w') = tDictionaryEntries (db w) /\
    notes_ok (tUserWordNotes (db w')) /\
    where_ (same_pair (SaveUserNoteInput.entryId input) (User.id u))
           (tUserWordNotes (db w')) = [n].
Proof.
  intros U Hentry OK.
  destruct (find_entry_some _ _ Hentry) as [entry F].
  unfold saveUserNote_merge, bind.
  destruct (find (same_pair _ _) (tUserWordNotes (db w))) as [e|] eqn:N.
  - destruct (saveUserNote_found input context u w entry e U F N)
      as (v & w1 & B & R).
    rewrite R, B. clear R.
    pose proof (find_some _ _ N) as [Hin He].
    rewrite (find_unique_id UserWordNotes.id _ e (proj1 OK) Hin).
    assert (V : UserWordNotes.v_entryId v = SaveUserNoteInput.entryId input
                /\ UserWordNotes.v_userId v = User.id u).
    { rewrite saveUserNote_baseValues_run in B. inversion B. split; reflexivity. }
    destruct V as [V1 V2]. rewrite <- V1, <- V2 in He |- *.
    destruct (notes_ok_update _ v e OK Hin He) as [OK' W].
    eexists. eexists. split; [reflexivity|].
    split; [eexists; reflexivity|]. simpl.
    split; [reflexivity|]. split; [exact OK' | exact W].
  - destruct (saveUserNote_first input context u w entry U F N)
      as (v & w1 & B & R).
    cbv zeta in R. rewrite R, B. clear R.
    assert (V : UserWordNotes.v_entryId v = SaveUserNoteInput.entryId input
                /\ UserWordNotes.v_userId v = User.id u).
    { rewrite saveUserNote_baseValues_run in B. inversion B. split; reflexivity. }
    destruct V as [V1 V2].
    apply find_none_where in N. rewrite <- V1, <- V2 in N |- *.
    eexists. eexists. split; [reflexivity|].
    split; [eexists; reflexivity|]. simpl.
    split; [reflexivity|].
    split; [apply notes_ok_insert; assumption|].
    unfold where_ in *. rewrite filter_app, N. simpl.
    replace (same_pair _ _ _) with true; [reflexivity|].
    symmetry. apply same_pair_true. split; reflexivity.
Qed.

(** C3. An authenticated caller saves a note twice, in two calls made
    under the same identity, for the same stored entry, with any two
    inputs, in a store whose notes are well formed (ids are a key, at most
    one note for each pair), as they are in every reachable world.  Both calls return;
    afterwards the store holds exactly one note for the pair (entryId,
    userId), the record the second call returned, which is the record of
    the first call rewritten; each of its fields is the value the second
    input gives, else the value the first input gives, else the value of
    the note the caller had before, else the default. *)
Theorem saveUserNote_twice_one_row_union context1 context2 u in1 in2 w :
  current_user context1 = Some u ->
  current_user context2 = Some u ->
  SaveUserNoteInput.entryId in2 = SaveUserNoteInput.entryId in1 ->
  entry_exists (SaveUserNoteInput.entryId in1) (db w) ->
  notes_ok (tUserWordNotes (db w)) ->
  let pair := same_pair (SaveUserNoteInput.entryId in1) (User.id u) in
  let prior := find pair (tUserWordNotes (db w)) in
  exists n1 w1 n2 w2,
    saveUserNote in1 context1 w = (Return (Some n1), w1) /\
    saveUserNote in2 context2 w1 = (Return (Some n2), w2) /\
    where_ pair (tUserWordNotes (db w2)) = [n2] /\
    UserWordNotes.id n2 = UserWordNotes.id n1 /\
    UserWordNotes.tags n2 =
      stored (given (SaveUserNoteInput.tags in2)
              ?? given (SaveUserNoteInput.tags in1)
              ?? optchain prior (fun e => column (UserWordNotes.tags e))) /\
    UserWordNotes.note n2 =
      stored (given (SaveUserNoteInput.note in2)
              ?? given (SaveUserNoteInput.note in1)
              ?? optchain prior (fun e => column (UserWordNotes.note e))) /\
    UserWordNotes.exampleSentence n2 =
      stored (given (SaveUserNoteInput.exampleSentence in2)
              ?? given (SaveUserNoteInput.exampleSentence in1)
              ?? optchain prior
                   (fun e => column (UserWordNotes.exampleSentence e))) /\
    UserWordNotes.isStarred n2 =
      given (SaveUserNoteInput.isStarred in2)
      ?? given (SaveUserNoteInput.isStarred in1)
      ?? optchain prior (fun e => val (UserWordNotes.isStarred e))
      ??! false /\
    UserWordNotes.familiarity n2 =
      given (SaveUserNoteInput.familiarity in2)
      ?? given (SaveUserNoteInput.familiarity in1)
      ?? optchain prior (fun e => val (UserWordNotes.familiarity e))
      ??! Fnew.
Proof.
  intros U U2 E Hentry OK pair prior.
  destruct (saveUserNote_step in1 context1 u w U Hentry OK)
    as (n1 & w1 & R1 & (wm1 & M1) & T1 & OK1 & W1).
  assert (Hentry1 : entry_exists (SaveUserNoteInput.entryId in2) (db w1)).
  { rewrite E. unfold entry_exists. rewrite T1. exact Hentry. }
  destruct (saveUserNote_step in2 context2 u w1 U2 Hentry1 OK1)
    as (n2 & w2 & R2 & (wm2 & M2) & T2 & OK2 & W2).
  rewrite E in M2, W2.
  rewrite find_where, W1 in M2. cbn [hd_error] in M2.
  exists n1, w1, n2, w2.
  split; [exact R1|]. split; [exact R2|]. split; [exact W2|].
  fold pair in M1. fold prior in M1.
  unfold saveUserNote_merge, bind in M1, M2.
  rewrite saveUserNote_baseValues_run in M1, M2.
  unfold ret in M1, M2. inversion M2; subst n2; clear M2.
  inversion M1; subst n1; clear M1.
  destruct prior as [e|]; cbn.
  - split; [reflexivity|].
    split; [destruct (SaveUserNoteInput.tags in2),
              (SaveUserNoteInput.tags in1), (UserWordNotes.tags e);
            reflexivity|].
    split; [destruct (SaveUserNoteInput.note in2),
              (SaveUserNoteInput.note in1), (UserWordNotes.note e);
            reflexivity|].
    split; [destruct (SaveUserNoteInput.exampleSentence in2),
              (SaveUserNoteInput.exampleSentence in1),
              (UserWordNotes.exampleSentence e);
            reflexivity|].
    split; [destruct (SaveUserNoteInput.isStarred in2),
              (SaveUserNoteInput.isStarred in1); reflexivity|].
    destruct (SaveUserNoteInput.familiarity in2),
      (SaveUserNoteInput.familiarity in1); reflexivity.
  - split; [reflexivity|].
    split; [destruct (SaveUserNoteInput.tags in2),
              (SaveUserNoteInput.tags in1); reflexivity|].
    split; [destruct (SaveUserNoteInput.note in2),
              (SaveUserNoteInput.note in1); reflexivity|].
    split; [destruct (SaveUserNoteInput.exampleSentence in2),
              (SaveUserNoteInput.exampleSentence in1); reflexivity|].
    split; [destruct (SaveUserNoteInput.isStarred in2),
              (SaveUserNoteInput.isStarred in1); reflexivity|].
    destruct (SaveUserNoteInput.familiarity in2),
      (SaveUserNoteInput.familiarity in1); reflexivity.
Qed.

Lemma notes_ok_nil : notes_ok [].
Proof.
  split; [constructor | intros; simpl; lia].
Qed.

(** The scenario of the specification: U1 stars the entry, then writes a
    note; the single row has both, and the default familiarity. *)
Lemma saveUserNote_twice_one_row_union_witness :
  exists n1 w1 n2 w2,
    saveUserNote Sample.starred (Sample.signed_in "u1") Sample.world1
      = (Return (Some n1), w1) /\
    saveUserNote Sample.noted (Sample.signed_in "u1") w1
      = (Return (Some n2), w2) /\
    where_ (same_pair 1 "u1") (tUserWordNotes (db w2)) = [n2] /\
    UserWordNotes.isStarred n2 = true /\
    UserWordNotes.note n2 = Some "means to jog" /\
    UserWordNotes.familiarity n2 = Fnew.
Proof.
  assert (Y : entry_exists 1 (db Sample.world1)).
  { eexists. split; [left; reflexivity | reflexivity]. }
  destruct (saveUserNote_twice_one_row_union
              (Sample.signed_in "u1") (Sample.signed_in "u1")
              {| User.id := "u1" |}
              Sample.starred Sample.noted Sample.world1
              eq_refl eq_refl eq_refl Y notes_ok_nil)
    as (n1 & w1 & n2 & w2 & R1 & R2 & W & _ & _ & N & _ & S & F).
  exists n1, w1, n2, w2.
  split; [exact R1|]. split; [exact R2|]. split; [exact W|].
  split; [exact S|]. split; [exact N | exact F].
Defined.

(** Saving the same input twice: the second call returns the record of
    the first with another updatedAt, and it is the caller's only note
    for the entry. *)
Lemma saveUserNote_again_same_input input context u w :
  current_user context = Some u ->
  entry_exists (SaveUserNoteInput.entryId input) (db w) ->
  notes_ok (tUserWordNotes (db w)) ->
  exists n1 w1 n2 w2,
    saveUserNote input context w = (Return (Some n1), w1) /\
    saveUserNote input context w1 = (Return (Some n2), w2) /\
    n2 = with_updatedAt (UserWordNotes.updatedAt n2) n1 /\
    where_ (same_pair (SaveUserNoteInput.entryId input) (User.id u))
           (tUserWordNotes (db w2)) = [n2].
Proof.
  intros U Hentry OK.
  destruct (saveUserNote_step input context u w U Hentry OK)
    as (n1 & w1 & R1 & (wm1 & M1) & T1 & OK1 & W1).
  assert (Hentry1 : entry_exists (SaveUserNoteInput.entryId input) (db w1)).
  { unfold entry_exists. rewrite T1. exact Hentry. }
  destruct (saveUserNote_step input context u w1 U Hentry1 OK1)
    as (n2 & w2 & R2 & (wm2 & M2) & _ & _ & W2).
  rewrite find_where, W1 in M2. cbn [hd_error] in M2.
  exists n1, w1, n2, w2.
  split; [exact R1|]. split; [exact R2|]. split; [|exact W2].
  destruct (saveUserNote_merge_again
              (find (same_pair (SaveUserNoteInput.entryId input) (User.id u))
                    (tUserWordNotes (db w)))
              input u (next_id UserWordNotes.id (tUserWordNotes (db w))) w)
    as (r1 & w1' & M1' & Again).
  rewrite M1 in M1'. inversion M1'; subst r1 w1'; clear M1'.
  destruct (Again (next_id UserWordNotes.id (tUserWordNotes (db w1))) w1)
    as (r2 & w2' & M2' & Eq).
  rewrite M2 in M2'. inversion M2'; subst r2 w2'; clear M2'.
  exact Eq.
Qed.

(** *** The rule of one note for each pair holds in every reachable world *)

Lemma notes_insert_DictionaryEntries v :
  keeps tUserWordNotes (insert_DictionaryEntries v).
Proof. intros w. reflexivity. Qed.

Lemma notes_update_DictionaryEntries v p :
  keeps tUserWordNotes (update_DictionaryEntries v p).
Proof. intros w. reflexivity. Qed.

Lemma notes_insert_EntryVariants v :
  keeps tUserWordNotes (insert_EntryVariants v).
Proof. intros w. reflexivity. Qed.

Lemma notes_insert_LookupHistory v :
  keeps tUserWordNotes (insert_LookupHistory v).
Proof.
  intros w. unfold after, insert_LookupHistory.
  destruct (references_entry _ _); reflexivity.
Qed.

#[export] Hint Resolve notes_insert_DictionaryEntries
  notes_update_DictionaryEntries notes_insert_EntryVariants
  notes_insert_LookupHistory : frame.

Lemma notes_upsertEntry input : keeps tUserWordNotes (upsertEntry input).
Proof.
  unfold upsertEntry, upsertEntry_baseValues, upsertEntry_update,
    upsertEntry_insert. frame.
Qed.

Lemma notes_addVariant input : keeps tUserWordNotes (addVariant input).
Proof. unfold addVariant. frame. Qed.

Lemma notes_listUserNotes context :
  keeps tUserWordNotes (listUserNotes context).
Proof. unfold listUserNotes. frame. Qed.

Lemma notes_logLookup input context :
  keeps tUserWordNotes (logLookup input context).
Proof. unfold logLookup. frame. Qed.

Lemma notes_listLookupHistory context :
  keeps tUserWordNotes (listLookupHistory context).
Proof. unfold listLookupHistory. frame. Qed.

Lemma saveUserNote_missing_entry input context u w :
  current_user context = Some u ->
  ~ entry_exists (SaveUserNoteInput.entryId input) (db w) ->
  saveUserNote input context w = (Throw NOT_FOUND, w).
Proof.
  intros U H. apply find_entry_none in H.
  unfold saveUserNote, bind.
  rewrite (requireUser_signed_in context u w U).
  unfold select_DictionaryEntries. rewrite first_limit_where, H.
  reflexivity.
Qed.

Lemma entry_exists_dec id d : {entry_exists id d} + {~ entry_exists id d}.
Proof.
  destruct (find (fun r => Z.eqb (DictionaryEntries.id r) id)
                 (tDictionaryEntries d)) as [e|] eqn:F.
  - left. apply find_some in F. destruct F as [Hin E].
    exists e. split; [exact Hin | now apply Z.eqb_eq].
  - right. intros (e & Hin & E).
    apply (find_none _ _ F) in Hin. simpl in Hin. lia.
Qed.

Lemma server_keeps_notes_ok call context w :
  notes_ok (tUserWordNotes (db w)) ->
  notes_ok (tUserWordNotes (db (server call context w))).
Proof.
  intros OK.
  destruct call as [input|input|input| |input| ]; unfold server.
  - now rewrite notes_upsertEntry.
  - now rewrite notes_addVariant.
  - destruct (current_user context) as [u|] eqn:U.
    + destruct (entry_exists_dec (SaveUserNoteInput.entryId input) (db w))
        as [Y|N].
      * destruct (saveUserNote_step input context u w U Y OK)
          as (n & w' & R & _ & _ & OK' & _).
        unfold after. rewrite R. exact OK'.
      * unfold after.
        rewrite (saveUserNote_missing_entry input context u w U N).
        exact OK.
    + destruct (unauthenticated_calls_refused_aux context w U) as [S _].
      unfold after. rewrite S. exact OK.
  - now rewrite notes_listUserNotes.
  - now rewrite notes_logLookup.
  - now rewrite notes_listLookupHistory.
Qed.

Lemma reachable_notes_ok w : reachable w -> notes_ok (tUserWordNotes (db w)).
Proof.
  induction 1 as [c n | w call context _ IH].
  - apply notes_ok_nil.
  - now apply server_keeps_notes_ok.
Qed.

(** X17. In a reachable world a caller never has two notes for one entry:
    each (entryId, userId) pair has at most one UserWordNotes row. *)
Corollary reachable_one_note_per_pair w entryId userId :
  reachable w ->
  (List.length
     (where_ (same_pair entryId userId) (tUserWordNotes (db w))) <= 1)%nat.
Proof.
  intros R. apply (proj2 (reachable_notes_ok w R)).
Qed.

(** * Further properties of the actions *)

(** ** One call as a step *)

Lemma addVariant_found input w entry :
  find (fun r => Z.eqb (DictionaryEntries.id r)
                       (AddVariantInput.entryId input))
       (tDictionaryEntries (db w)) = Some entry ->
  let v := EntryVariants.insert_row
      (next_id EntryVariants.id (tEntryVariants (db w)))
      {| EntryVariants.v_entryId := AddVariantInput.entryId input;
         EntryVariants.v_variant := AddVariantInput.variant input;
         EntryVariants.v_variantType :=
           given (AddVariantInput.variantType input);
         EntryVariants.v_createdAt := clock w (reads w) |} in
  addVariant input w =
    (Return (Some v),
     {| db := {| tDictionaryEntries := tDictionaryEntries (db w);
                 tEntryVariants := tEntryVariants (db w) ++ [v];
                 tUserWordNotes := tUserWordNotes (db w);
                 tLookupHistory := tLookupHistory (db w) |};
        clock := clock w; reads := S (reads w) |}).
Proof.
  intros F v. unfold addVariant, bind, select_DictionaryEntries.
  rewrite first_limit_where, F. reflexivity.
Qed.

Lemma addVariant_missing input w :
  find (fun r => Z.eqb (DictionaryEntries.id r)
                       (AddVariantInput.entryId input))
       (tDictionaryEntries (db w)) = None ->
  addVariant input w = (Throw NOT_FOUND, w).
Proof.
  intros F. unfold addVariant, bind, select_DictionaryEntries.
  rewrite first_limit_where, F. reflexivity.
Qed.

Lemma find_entry_exists id d e :
  find (fun r => Z.eqb (DictionaryEntries.id r) id)
       (tDictionaryEntries d) = Some e ->
  entry_exists id d.
Proof.
  intros F. apply find_some in F. destruct F as [Hin E].
  exists e. split; [exact Hin | now apply Z.eqb_eq].
Qed.

Lemma listUserNotes_reads context w :
  after (listUserNotes context) w = w.
Proof.
  unfold after, listUserNotes, bind.
  destruct (current_user context) as [u|] eqn:U.
  - rewrite (requireUser_signed_in context u w U). reflexivity.
  - rewrite (requireUser_anonymous context w U). reflexivity.
Qed.

Lemma listLookupHistory_reads context w :
  after (listLookupHistory context) w = w.
Proof.
  unfold after, listLookupHistory, bind.
  destruct (current_user context) as [u|] eqn:U.
  - rewrite (requireUser_signed_in context u w U). reflexivity.
  - rewrite (requireUser_anonymous context w U). reflexivity.
Qed.

Lemma upsertEntry_step input w : Step w (after (upsertEntry input) w).
Proof.
  unfold after. rewrite upsertEntry_paths, upsertEntry_baseValues_run.
  assert (K : (reads w <= created_reading input w)%nat).
  { unfold created_reading.
    destruct (UpsertEntryInput.fetchedAt input); lia. }
  set (v := {| DictionaryEntries.v_term := UpsertEntryInput.term input |}).
  assert (I : Step w (snd (upsertEntry_insert v
                {| db := db w; clock := clock w;
                   reads := S (S (created_reading input w)) |}))).
  { rewrite upsertEntry_insert_run.
    apply (StepEntryInsert w _ v (created_reading input w));
      solve [exact K | reflexivity]. }
  destruct (UpsertEntryInput.id input) as [id|]; [|exact I].
  destruct (truthy id); [|exact I].
  destruct (find (fun r => Z.eqb (DictionaryEntries.id r) id)
                 (tDictionaryEntries (db w))) as [existing|] eqn:F.
  - rewrite (upsertEntry_update_found id v _ existing) by exact F.
    apply (StepEntryUpdate w _ v (created_reading input w) id existing);
      solve [exact K | exact F | reflexivity].
  - rewrite upsertEntry_update_missing by exact F.
    apply StepNothing; [reflexivity | simpl; lia].
Qed.

Lemma addVariant_step input w : Step w (after (addVariant input) w).
Proof.
  unfold after.
  destruct (find (fun r => Z.eqb (DictionaryEntries.id r)
                                 (AddVariantInput.entryId input))
                 (tDictionaryEntries (db w))) as [entry|] eqn:F.
  - rewrite (addVariant_found input w entry F). cbv zeta.
    eapply StepVariantInsert;
      [reflexivity | | reflexivity | reflexivity | reflexivity | reflexivity].
    exact (find_entry_exists _ _ _ F).
  - rewrite (addVariant_missing input w F).
    apply StepNothing; [reflexivity | simpl; lia].
Qed.

Lemma saveUserNote_step_of input context w :
  Step w (after (saveUserNote input context) w).
Proof.
  unfold after.
  destruct (current_user context) as [u|] eqn:U.
  2:{ destruct (unauthenticated_calls_refused_aux context w U) as [S _].
      rewrite S. apply StepNothing; [reflexivity | simpl; lia]. }
  destruct (find (fun r => Z.eqb (DictionaryEntries.id r)
                                 (SaveUserNoteInput.entryId input))
                 (tDictionaryEntries (db w))) as [entry|] eqn:F.
  2:{ rewrite (saveUserNote_missing_entry input context u w U).
      - apply StepNothing; [reflexivity | simpl; lia].
      - intros H. destruct (find_entry_some _ _ H) as [x Fx]. congruence. }
  pose proof (find_entry_exists _ _ _ F) as Y.
  destruct (find (same_pair (SaveUserNoteInput.entryId input) (User.id u))
                 (tUserWordNotes (db w))) as [e|] eqn:N.
  - destruct (saveUserNote_found input context u w entry e U F N)
      as (v & w1 & B & R).
    rewrite R. rewrite saveUserNote_baseValues_run in B.
    injection B as Hv Hw. subst w1. clear R.
    apply (StepNoteUpdate w _ v e); subst v;
      solve [reflexivity | exact Y | exact N].
  - destruct (saveUserNote_first input context u w entry U F N)
      as (v & w1 & B & R).
    cbv zeta in R. rewrite R. rewrite saveUserNote_baseValues_run in B.
    injection B as Hv Hw. subst w1. clear R.
    apply (StepNoteInsert w _ v); subst v;
      solve [reflexivity | exact Y | exact N].
Qed.

Lemma logLookup_step input context w :
  Step w (after (logLookup input context) w).
Proof.
  unfold after. destruct (current_user context) as [u|] eqn:U.
  - destruct (entry_reference_ok_dec (LogLookupInput.entryId input) (db w))
      as [Ok|No].
    + rewrite (logLookup_signed_in input context u w U Ok). cbv zeta.
      eapply StepHistoryInsert; reflexivity.
    + rewrite (logLookup_dangling input context u w U No).
      apply StepNothing; [reflexivity | simpl; lia].
  - destruct (unauthenticated_calls_refused_aux context w U) as [_ L].
    rewrite L. apply StepNothing; [reflexivity | simpl; lia].
Qed.

Lemma server_step call context w : Step w (server call context w).
Proof.
  destruct call as [input|input|input| |input| ]; unfold server.
  - apply upsertEntry_step.
  - apply addVariant_step.
  - apply saveUserNote_step_of.
  - rewrite listUserNotes_reads. apply StepNothing; [reflexivity | simpl; lia].
  - apply logLookup_step.
  - rewrite listLookupHistory_reads. apply StepNothing; [reflexivity | simpl; lia].
Qed.

(** *** The clock is only read *)

Section Steady.
Lemma steady_ret {A} (a : A) : steady (ret a).
Proof. intros w. reflexivity. Qed.

Lemma steady_throw {A} code : steady (@throw A code).
Proof. intros w. reflexivity. Qed.

Lemma steady_newDate : steady newDate.
Proof. intros w. reflexivity. Qed.

Lemma steady_or_newDate x : steady (or_newDate x).
Proof. destruct x; intros w; reflexivity. Qed.

Lemma steady_bind {A B} (m : Handler A) (k : A -> Handler B) :
  steady m -> (forall a, steady (k a)) -> steady (bind m k).
Proof.
  intros Hm Hk w. unfold after, bind.
  specialize (Hm w). unfold after in Hm.
  destruct (m w) as [[a|code] w1]; simpl in *.
  - rewrite <- Hm. apply Hk.
  - exact Hm.
Qed.

Lemma steady_requireUser context : steady (requireUser context).
Proof.
  unfold requireUser. destruct (optchain (locals context) user);
    intros w; reflexivity.
Qed.

Lemma steady_select_DictionaryEntries p : steady (select_DictionaryEntries p).
Proof. intros w. reflexivity. Qed.

Lemma steady_select_UserWordNotes p : steady (select_UserWordNotes p).
Proof. intros w. reflexivity. Qed.

Lemma steady_select_LookupHistory p : steady (select_LookupHistory p).
Proof. intros w. reflexivity. Qed.

Lemma steady_insert_DictionaryEntries v : steady (insert_DictionaryEntries v).
Proof. intros w. reflexivity. Qed.

Lemma steady_update_DictionaryEntries v p :
  steady (update_DictionaryEntries v p).
Proof. intros w. reflexivity. Qed.

Lemma steady_insert_EntryVariants v : steady (insert_EntryVariants v).
Proof. intros w. reflexivity. Qed.

Lemma steady_insert_UserWordNotes v : steady (insert_UserWordNotes v).
Proof. intros w. reflexivity. Qed.

Lemma steady_update_UserWordNotes v p : steady (update_UserWordNotes v p).
Proof. intros w. reflexivity. Qed.

Lemma steady_insert_LookupHistory v : steady (insert_LookupHistory v).
Proof.
  intros w. unfold after, insert_LookupHistory.
  destruct (references_entry _ _); reflexivity.
Qed.
End Steady.

Create HintDb steady.
#[export] Hint Resolve steady_ret steady_throw steady_newDate
  steady_or_newDate steady_requireUser steady_select_DictionaryEntries
  steady_select_UserWordNotes steady_select_LookupHistory
  steady_insert_DictionaryEntries steady_update_DictionaryEntries
  steady_insert_EntryVariants steady_insert_UserWordNotes
  steady_update_UserWordNotes steady_insert_LookupHistory : steady.

Ltac steadily :=
  repeat first
    [ apply steady_bind; [|intros ?]
    | match goal with
      | |- steady (match ?x with _ => _ end) => destruct x
      | |- steady (if ?b then _ else _) => destruct b
      end
    | solve [auto with steady] ].

Lemma server_clock call context w : clock (server call context w) = clock w.
Proof.
  assert (S : forall A (h : Handler A), steady h ->
              clock (after h w) = clock w) by (intros A h H; apply H).
  destruct call as [input|input|input| |input| ]; unfold server; apply S.
  - unfold upsertEntry, upsertEntry_baseValues, upsertEntry_update,
      upsertEntry_insert. steadily.
  - unfold addVariant. steadily.
  - unfold saveUserNote, saveUserNote_baseValues. steadily.
  - unfold listUserNotes. steadily.
  - unfold logLookup. steadily.
  - unfold listLookupHistory. steadily.
Qed.

Lemma run_clock calls w : clock (run calls w) = clock w.
Proof.
  revert w. induction calls as [|[call context] rest IH]; intros w; simpl.
  - reflexivity.
  - rewrite IH. apply server_clock.
Qed.

(** ** What a step keeps *)

Section Keys.
Context {row : Type} (id : row -> Z).

Lemma key_nil : key id [].
Proof. split; [constructor | intros r []]. Qed.

Lemma key_insert rows r :
  key id rows -> id r = next_id id rows -> key id (rows ++ [r]).
Proof.
  intros [ND P] E. split.
  - rewrite map_app. apply NoDup_app; [exact ND | |].
    + constructor; [intros [] | constructor].
    + intros a Ha [<- | []]. rewrite E in Ha.
      now apply (next_id_fresh id rows).
  - intros x Hx. apply in_app_or in Hx. destruct Hx as [Hx | [<- | []]].
    + now apply P.
    + rewrite E. apply next_id_positive.
Qed.

Lemma key_update (set : row -> row) p rows :
  (forall r, id (set r) = id r) ->
  key id rows -> key id (update_rows set p rows).
Proof.
  intros Hid [ND P]. split.
  - now rewrite (update_rows_ids id set p rows Hid).
  - intros x Hx. unfold update_rows in Hx. apply in_map_iff in Hx.
    destruct Hx as (r & <- & Hr). destruct (p r).
    + rewrite Hid. now apply P.
    + now apply P.
Qed.
End Keys.

Lemma step_ids_ok w w' : Step w w' -> ids_ok (db w) -> ids_ok (db w').
Proof.
  intros S (KE & KV & KN & KH). unfold ids_ok.
  destruct S as [D _ | v k _ _ _ _ E V N H | v k id ex _ _ _ _ _ E V N H
                | v _ _ V E N H | v _ _ _ _ _ N E V H
                | v e _ _ _ _ _ N E V H | v _ H E V N].
  - rewrite D. auto.
  - rewrite E, V, N, H. split; [|tauto].
    apply key_insert; [exact KE | reflexivity].
  - rewrite E, V, N, H. split; [|tauto].
    apply key_update; [reflexivity | exact KE].
  - rewrite E, V, N, H. split; [tauto|]. split; [|tauto].
    apply key_insert; [exact KV | reflexivity].
  - rewrite E, V, N, H. split; [tauto|]. split; [tauto|]. split; [|tauto].
    apply key_insert; [exact KN | reflexivity].
  - rewrite E, V, N, H. split; [tauto|]. split; [tauto|]. split; [|tauto].
    apply key_update; [reflexivity | exact KN].
  - rewrite E, V, N, H. split; [tauto|]. split; [tauto|]. split; [tauto|].
    apply key_insert; [exact KH | reflexivity].
Qed.

Lemma step_entry_ids w w' :
  Step w w' ->
  exists added,
    map DictionaryEntries.id (tDictionaryEntries (db w'))
      = map DictionaryEntries.id (tDictionaryEntries (db w)) ++ added /\
    (List.length added <= 1)%nat.
Proof.
  intros S.
  destruct S as [D _ | v k _ _ _ _ E V N H | v k id ex _ _ _ _ _ E V N H
                | v _ _ V E N H | v _ _ _ _ _ N E V H
                | v e _ _ _ _ _ N E V H | v _ H E V N];
    try (exists []; rewrite app_nil_r; split; [congruence | simpl; lia]).
  - rewrite E, map_app. eexists. split; [reflexivity | simpl; lia].
  - exists []. rewrite app_nil_r, E. split; [|simpl; lia].
    apply update_rows_ids. reflexivity.
Qed.

Lemma entry_exists_ids id d :
  entry_exists id d <-> In id (map DictionaryEntries.id (tDictionaryEntries d)).
Proof.
  unfold entry_exists. rewrite in_map_iff. split.
  - intros (e & Hin & E). exists e. tauto.
  - intros (e & E & Hin). exists e. tauto.
Qed.

Lemma step_entry_exists w w' id :
  Step w w' -> entry_exists id (db w) -> entry_exists id (db w').
Proof.
  intros S. rewrite !entry_exists_ids.
  destruct (step_entry_ids w w' S) as (added & -> & _).
  intros H. apply in_or_app. now left.
Qed.

Lemma step_references_ok w w' :
  Step w w' -> references_ok (db w) -> references_ok (db w').
Proof.
  intros S [RV RN].
  assert (X : forall id, entry_exists id (db w) -> entry_exists id (db w'))
    by (intros id; now apply step_entry_exists).
  destruct S as [D _ | v k _ _ _ _ E V N H | v k id ex _ _ _ _ _ E V N H
                | v _ Y V E N H | v _ Y _ _ _ N E V H
                | v e _ Y _ _ _ N E V H | v _ H E V N];
    split; intros r Hr.
  - rewrite D in *. now apply RV.
  - rewrite D in *. now apply RN.
  - rewrite V in Hr. auto.
  - rewrite N in Hr. auto.
  - rewrite V in Hr. auto.
  - rewrite N in Hr. auto.
  - rewrite V in Hr. apply in_app_or in Hr.
    destruct Hr as [Hr | [<- | []]]; [auto | apply X, Y].
  - rewrite N in Hr. auto.
  - rewrite V in Hr. auto.
  - rewrite N in Hr. apply in_app_or in Hr.
    destruct Hr as [Hr | [<- | []]]; [auto | apply X, Y].
  - rewrite V in Hr. auto.
  - rewrite N in Hr. unfold update_rows in Hr. apply in_map_iff in Hr.
    destruct Hr as (x & <- & Hx).
    destruct (Z.eqb _ _); [apply X, Y | auto].
  - rewrite V in Hr. auto.
  - rewrite N in Hr. auto.
Qed.

Lemma monotone_le (c : nat -> Date) (a b : nat) :
  monotone c -> (a <= b)%nat -> c a <= c b.
Proof.
  intros M L. induction L as [|b L IH]; [lia|].
  specialize (M b). lia.
Qed.

Lemma step_reads w w' : Step w w' -> (reads w <= reads w')%nat.
Proof.
  intros S. destruct S; lia.
Qed.

Lemma step_stamps_ok w w' :
  Step w w' -> clock w' = clock w -> monotone (clock w) ->
  stamps_ok w -> stamps_ok w'.
Proof.
  intros S C M [SE SN]. pose proof (step_reads w w' S) as L.
  assert (Later : forall n, In n (tUserWordNotes (db w)) ->
            UserWordNotes.createdAt n <= UserWordNotes.updatedAt n /\
            UserWordNotes.updatedAt n <= clock w' (reads w')).
  { intros n Hn. destruct (SN n Hn) as [A B]. split; [exact A|].
    rewrite C. pose proof (monotone_le _ _ _ M L). lia. }
  unfold stamps_ok.
  destruct S as [D _ | v k _ _ Cv Uv E V N H | v k id ex _ _ Cv Uv _ E V N H
                | v _ _ V E N H | v R _ _ Cv Uv N E V H
                | v e R _ F Cv Uv N E V H | v _ H E V N].
  - rewrite D. auto.
  - rewrite E, N. split; [|exact Later].
    intros e He. apply in_app_or in He.
    destruct He as [He | [<- | []]]; [auto|]. simpl.
    rewrite Cv, Uv. apply M.
  - rewrite E, N. split; [|exact Later].
    intros e He. unfold update_rows in He. apply in_map_iff in He.
    destruct He as (x & <- & Hx). destruct (Z.eqb _ _); [|auto].
    simpl. rewrite Cv, Uv. apply M.
  - rewrite E, N. auto.
  - rewrite E, N. split; [exact SE|].
    intros n Hn. apply in_app_or in Hn.
    destruct Hn as [Hn | [<- | []]]; [auto|]. simpl.
    rewrite Cv, Uv, C, R. split; apply M.
  - rewrite E, N. split; [exact SE|].
    intros n Hn. unfold update_rows in Hn. apply in_map_iff in Hn.
    destruct Hn as (x & <- & Hx). destruct (Z.eqb _ _); [|auto].
    simpl. rewrite Cv, Uv, C, R.
    apply find_some in F. destruct F as [He _].
    destruct (SN e He) as [A B]. split; [lia | apply M].
  - rewrite E, N. auto.
Qed.

Lemma step_append_only w w' :
  Step w w' ->
  (exists added,
     tEntryVariants (db w') = tEntryVariants (db w) ++ added /\
     (List.length added <= 1)%nat) /\
  (exists added,
     tLookupHistory (db w') = tLookupHistory (db w) ++ added /\
     (List.length added <= 1)%nat).
Proof.
  intros S.
  destruct S as [D _ | v k _ _ _ _ E V N H | v k id ex _ _ _ _ _ E V N H
                | v _ _ V E N H | v _ _ _ _ _ N E V H
                | v e _ _ _ _ _ N E V H | v _ H E V N];
    split;
    solve [ exists []; rewrite app_nil_r; split; [congruence | simpl; lia]
          | eexists; split; [eassumption | simpl; lia] ].
Qed.

(** ** Each action and its table *)

Lemma entries_insert_EntryVariants v :
  keeps tDictionaryEntries (insert_EntryVariants v).
Proof. intros w. reflexivity. Qed.

Lemma entries_insert_UserWordNotes v :
  keeps tDictionaryEntries (insert_UserWordNotes v).
Proof. intros w. reflexivity. Qed.

Lemma entries_update_UserWordNotes v p :
  keeps tDictionaryEntries (update_UserWordNotes v p).
Proof. intros w. reflexivity. Qed.

Lemma entries_insert_LookupHistory v :
  keeps tDictionaryEntries (insert_LookupHistory v).
Proof.
  intros w. unfold after, insert_LookupHistory.
  destruct (references_entry _ _); reflexivity.
Qed.

Lemma variants_insert_DictionaryEntries v :
  keeps tEntryVariants (insert_DictionaryEntries v).
Proof. intros w. reflexivity. Qed.

Lemma variants_update_DictionaryEntries v p :
  keeps tEntryVariants (update_DictionaryEntries v p).
Proof. intros w. reflexivity. Qed.

Lemma variants_insert_UserWordNotes v :
  keeps tEntryVariants (insert_UserWordNotes v).
Proof. intros w. reflexivity. Qed.

Lemma variants_update_UserWordNotes v p :
  keeps tEntryVariants (update_UserWordNotes v p).
Proof. intros w. reflexivity. Qed.

Lemma variants_insert_LookupHistory v :
  keeps tEntryVariants (insert_LookupHistory v).
Proof.
  intros w. unfold after, insert_LookupHistory.
  destruct (references_entry _ _); reflexivity.
Qed.

#[export] Hint Resolve entries_insert_EntryVariants
  entries_insert_UserWordNotes entries_update_UserWordNotes
  entries_insert_LookupHistory variants_insert_DictionaryEntries
  variants_update_DictionaryEntries variants_insert_UserWordNotes
  variants_update_UserWordNotes variants_insert_LookupHistory : frame.

(** X2. Each writing action changes no table but its own: upsertEntry
    leaves variants, notes and history as they were, addVariant leaves
    entries, notes and history, saveUserNote leaves entries, variants and
    history, logLookup leaves entries, variants and notes; the two
    listing actions leave the whole world as it was.  This holds whether
    the call returns or throws. *)
Theorem calls_write_their_own_table call context w :
  let d := db w in
  let d' := db (server call context w) in
  match call with
  | CallUpsertEntry _ =>
      tEntryVariants d' = tEntryVariants d /\
      tUserWordNotes d' = tUserWordNotes d /\
      tLookupHistory d' = tLookupHistory d
  | CallAddVariant _ =>
      tDictionaryEntries d' = tDictionaryEntries d /\
      tUserWordNotes d' = tUserWordNotes d /\
      tLookupHistory d' = tLookupHistory d
  | CallSaveUserNote _ =>
      tDictionaryEntries d' = tDictionaryEntries d /\
      tEntryVariants d' = tEntryVariants d /\
      tLookupHistory d' = tLookupHistory d
  | CallLogLookup _ =>
      tDictionaryEntries d' = tDictionaryEntries d /\
      tEntryVariants d' = tEntryVariants d /\
      tUserWordNotes d' = tUserWordNotes d
  | CallListUserNotes | CallListLookupHistory =>
      server call context w = w
  end.
Proof.
  cbv zeta.
  destruct call as [input|input|input| |input| ]; unfold server.
  - split; [|split].
    + assert (K : keeps tEntryVariants (upsertEntry input)); [|apply K].
      unfold upsertEntry, upsertEntry_baseValues, upsertEntry_update,
        upsertEntry_insert. frame.
    + apply notes_upsertEntry.
    + apply history_upsertEntry.
  - split; [|split].
    + assert (K : keeps tDictionaryEntries (addVariant input)); [|apply K].
      unfold addVariant. frame.
    + apply notes_addVariant.
    + apply history_addVariant.
  - split; [|split].
    + assert (K : keeps tDictionaryEntries (saveUserNote input context));
        [|apply K].
      unfold saveUserNote, saveUserNote_baseValues. frame.
    + assert (K : keeps tEntryVariants (saveUserNote input context));
        [|apply K].
      unfold saveUserNote, saveUserNote_baseValues. frame.
    + apply history_saveUserNote.
  - apply listUserNotes_reads.
  - split; [|split].
    + assert (K : keeps tDictionaryEntries (logLookup input context));
        [|apply K].
      unfold logLookup. frame.
    + assert (K : keeps tEntryVariants (logLookup input context));
        [|apply K].
      unfold logLookup. frame.
    + apply notes_logLookup.
  - apply listLookupHistory_reads.
Qed.

(** X1. For an authenticated caller, in any world, listLookupHistory
    returns exactly the stored history rows whose userId is the caller's
    id, in stored order, and leaves the world as it was; a row of another
    user, or a row without userId, is never returned. *)
Theorem listLookupHistory_returns_only_own_history context u w :
  current_user context = Some u ->
  exists history,
    listLookupHistory context w = (Return history, w) /\
    (forall h, In h history <->
       In h (tLookupHistory (db w)) /\
       LookupHistory.userId h = Some (User.id u)) /\
    (forall h, In h history -> LookupHistory.userId h <> None) /\
    history =
      filter (fun r => eq_text (LookupHistory.userId r) (User.id u))
             (tLookupHistory (db w)).
Proof.
  intros U. eexists. split; [|split; [|split]].
  - unfold listLookupHistory, bind.
    rewrite (requireUser_signed_in context u w U). reflexivity.
  - intros h. unfold where_. rewrite filter_In. unfold eq_text.
    destruct (LookupHistory.userId h) as [x|].
    + rewrite String.eqb_eq. split.
      * intros [Hin ->]. auto.
      * intros [Hin E]. inversion E. auto.
    + split; [intros [_ E]; discriminate | intros [_ E]; discriminate].
  - intros h Hh. unfold where_ in Hh. apply filter_In in Hh.
    destruct Hh as [_ E]. unfold eq_text in E.
    destruct (LookupHistory.userId h); [discriminate | discriminate E].
  - reflexivity.
Qed.

Lemma listLookupHistory_returns_only_own_history_witness :
  current_user (Sample.signed_in "u1") = Some {| User.id := "u1" |} /\
  exists history,
    listLookupHistory (Sample.signed_in "u1") Sample.world4
      = (Return history, Sample.world4) /\
    List.length history = 1%nat /\
    List.length (tLookupHistory (db Sample.world4)) = 2%nat /\
    forall h, In h history -> LookupHistory.userId h = Some "u1".
Proof.
  split; [reflexivity|].
  destruct (listLookupHistory_returns_only_own_history
              (Sample.signed_in "u1") {| User.id := "u1" |} Sample.world4
              eq_refl) as (history & R & Own & _ & E).
  exists history. split; [exact R|].
  split; [rewrite E; reflexivity|]. split; [reflexivity|].
  intros h Hh. apply Own in Hh. exact (proj2 Hh).
Defined.

(** ** Sequences of calls *)

Lemma run_app calls calls' w :
  run (calls ++ calls') w = run calls' (run calls w).
Proof.
  revert w. induction calls as [|[call context] rest IH]; intros w; simpl.
  - reflexivity.
  - apply IH.
Qed.

Lemma run_entry_exists calls w id :
  entry_exists id (db w) -> entry_exists id (db (run calls w)).
Proof.
  revert w. induction calls as [|[call context] rest IH]; intros w H; simpl.
  - exact H.
  - apply IH. apply (step_entry_exists w); [apply server_step | exact H].
Qed.

(** X3. No sequence of calls removes a DictionaryEntry or changes its id:
    afterwards the ids of the table are the ids before, in the same
    order, followed by at most one new id for each call. *)
Theorem entries_are_never_removed calls w :
  exists added,
    map DictionaryEntries.id (tDictionaryEntries (db (run calls w)))
      = map DictionaryEntries.id (tDictionaryEntries (db w)) ++ added /\
    (List.length added <= List.length calls)%nat.
Proof.
  revert w. induction calls as [|[call context] rest IH]; intros w; simpl.
  - exists []. rewrite app_nil_r. split; [reflexivity | simpl; lia].
  - destruct (IH (server call context w)) as (more & E & L).
    destruct (step_entry_ids w _ (server_step call context w))
      as (one & E1 & L1).
    exists (one ++ more). rewrite E, E1, app_assoc. split; [reflexivity|].
    rewrite length_app. lia.
Qed.

(** X4. EntryVariants and LookupHistory only grow: after any sequence of
    calls each of the two tables is the table before, row for row,
    followed by at most one new row for each call. *)
Theorem variants_and_history_only_grow calls w :
  (exists added,
     tEntryVariants (db (run calls w)) = tEntryVariants (db w) ++ added /\
     (List.length added <= List.length calls)%nat) /\
  (exists added,
     tLookupHistory (db (run calls w)) = tLookupHistory (db w) ++ added /\
     (List.length added <= List.length calls)%nat).
Proof.
  revert w. induction calls as [|[call context] rest IH]; intros w; simpl.
  - split; exists []; rewrite app_nil_r; split; try reflexivity; simpl; lia.
  - destruct (IH (server call context w))
      as [(mv & Ev & Lv) (mh & Eh & Lh)].
    destruct (step_append_only w _ (server_step call context w))
      as [(ov & Ev1 & Lv1) (oh & Eh1 & Lh1)].
    split.
    + exists (ov ++ mv). rewrite Ev, Ev1, app_assoc.
      split; [reflexivity | rewrite length_app; lia].
    + exists (oh ++ mh). rewrite Eh, Eh1, app_assoc.
      split; [reflexivity | rewrite length_app; lia].
Qed.

Lemma upsertEntry_returned_exists input w e w1 :
  upsertEntry input w = (Return (Some e), w1) ->
  entry_exists (DictionaryEntries.id e) (db w1).
Proof.
  rewrite upsertEntry_paths, upsertEntry_baseValues_run.
  set (v := {| DictionaryEntries.v_term := UpsertEntryInput.term input |}).
  assert (I : forall w0,
    upsertEntry_insert v w0 = (Return (Some e), w1) ->
    entry_exists (DictionaryEntries.id e) (db w1)).
  { intros w0. rewrite upsertEntry_insert_run. cbv zeta. intros H.
    inversion H; subst. exists (DictionaryEntries.insert_row
      (next_id DictionaryEntries.id (tDictionaryEntries (db w0))) v).
    split; [|reflexivity]. simpl. apply in_or_app. right. now left. }
  destruct (UpsertEntryInput.id input) as [id|]; [|apply I].
  destruct (truthy id); [|apply I].
  destruct (find (fun r => Z.eqb (DictionaryEntries.id r) id)
                 (tDictionaryEntries (db w))) as [existing|] eqn:F.
  - rewrite (upsertEntry_update_found id v _ existing) by exact F.
    intros H. inversion H; subst. simpl.
    apply find_some in F. destruct F as [Hin E].
    exists (DictionaryEntries.set_row v existing). split; [|reflexivity].
    unfold update_rows. apply in_map_iff. exists existing.
    cbv beta. rewrite E. auto.
  - rewrite upsertEntry_update_missing by exact F. discriminate.
Qed.

Lemma find_of_in {row} (p : row -> bool) rows e :
  In e rows -> p e = true -> exists x, find p rows = Some x.
Proof.
  intros Hin P. destruct (find p rows) as [x|] eqn:F; [now exists x|].
  rewrite (find_none _ _ F e Hin) in P. discriminate.
Qed.

(** saveUserNote by an authenticated caller for a stored entry returns. *)
Lemma saveUserNote_returns input context u w :
  current_user context = Some u ->
  entry_exists (SaveUserNoteInput.entryId input) (db w) ->
  exists n w',
    saveUserNote input context w = (Return (Some n), w') /\
    UserWordNotes.entryId n = SaveUserNoteInput.entryId input /\
    UserWordNotes.userId n = User.id u.
Proof.
  intros U Y. destruct (find_entry_some _ _ Y) as [entry F].
  destruct (find (same_pair (SaveUserNoteInput.entryId input) (User.id u))
                 (tUserWordNotes (db w))) as [e|] eqn:N.
  - destruct (saveUserNote_found input context u w entry e U F N)
      as (v & w1 & B & R).
    rewrite R. rewrite saveUserNote_baseValues_run in B.
    injection B as Hv Hw.
    apply find_some in N. destruct N as [Hin _].
    destruct (find_of_in
                (fun r => Z.eqb (UserWordNotes.id r) (UserWordNotes.id e))
                _ e Hin (Z.eqb_refl _)) as [x Fx].
    rewrite Fx. simpl. eexists. eexists. split; [reflexivity|].
    subst v. split; reflexivity.
  - destruct (saveUserNote_first input context u w entry U F N)
      as (v & w1 & B & R).
    cbv zeta in R. rewrite R. rewrite saveUserNote_baseValues_run in B.
    injection B as Hv Hw.
    eexists. eexists. split; [reflexivity|].
    subst v. split; reflexivity.
Qed.

(** X5. The entry upsertEntry returns, inserted or updated, stays
    attachable: after any further calls, addVariant with its id appends a
    variant attached to it, and saveUserNote by an authenticated caller
    with its id returns a note attached to it; neither throws
    NOT_FOUND. *)
Theorem upsertEntry_result_stays_attachable input w e w1 calls :
  upsertEntry input w = (Return (Some e), w1) ->
  (forall variant,
     AddVariantInput.entryId variant = DictionaryEntries.id e ->
     exists v w',
       addVariant variant (run calls w1) = (Return (Some v), w') /\
       EntryVariants.entryId v = DictionaryEntries.id e /\
       tEntryVariants (db w')
         = tEntryVariants (db (run calls w1)) ++ [v]) /\
  (forall note context u,
     SaveUserNoteInput.entryId note = DictionaryEntries.id e ->
     current_user context = Some u ->
     exists n w',
       saveUserNote note context (run calls w1) = (Return (Some n), w') /\
       UserWordNotes.entryId n = DictionaryEntries.id e /\
       UserWordNotes.userId n = User.id u).
Proof.
  intros R.
  pose proof (run_entry_exists calls w1 _
                (upsertEntry_returned_exists input w e w1 R)) as Y.
  split.
  - intros variant E. rewrite <- E in Y.
    destruct (find_entry_some _ _ Y) as [entry F].
    rewrite (addVariant_found variant _ entry F). cbv zeta.
    eexists. eexists. split; [reflexivity|]. split; [exact E | reflexivity].
  - intros note context u E U. rewrite <- E in Y |- *.
    apply (saveUserNote_returns note context u _ U Y).
Qed.

Lemma upsertEntry_result_stays_attachable_witness :
  exists e w1 v w',
    upsertEntry Sample.run_fr Sample.world0 = (Return (Some e), w1) /\
    AddVariantInput.entryId Sample.plural = DictionaryEntries.id e /\
    addVariant Sample.plural (run Sample.later_calls w1)
      = (Return (Some v), w') /\
    EntryVariants.entryId v = DictionaryEntries.id e.
Proof.
  eexists. eexists.
  assert (R : upsertEntry Sample.run_fr Sample.world0
              = (Return (Some _), _)) by reflexivity.
  destruct (proj1 (upsertEntry_result_stays_attachable
                     _ _ _ _ Sample.later_calls R) Sample.plural eq_refl)
    as (v & w' & A & E & _).
  exists v, w'. split; [exact R|]. split; [reflexivity|].
  split; [exact A | exact E].
Defined.

(** ** Invariants of the reachable worlds *)

Lemma reachable_world1 : reachable Sample.world1.
Proof.
  exact (reachable_call Sample.world0 (CallUpsertEntry Sample.run_fr)
           Sample.anonymous (reachable_empty Sample.ticking 0)).
Qed.

Lemma reachable_run calls w : reachable w -> reachable (run calls w).
Proof.
  revert w. induction calls as [|[call context] rest IH]; intros w R; simpl.
  - exact R.
  - apply IH. now apply reachable_call.
Qed.

Lemma ticking_monotone : monotone Sample.ticking.
Proof. intros n. unfold Sample.ticking. lia. Qed.

(** X6. In every world the six operations reach from an empty database,
    the ids of each of the four tables are a key and are positive; in
    particular no stored DictionaryEntry has the id 0, the id that
    upsertEntry treats as absent. *)
Theorem reachable_ids_ok w :
  reachable w ->
  ids_ok (db w) /\ ~ entry_exists 0 (db w).
Proof.
  intros R.
  assert (K : ids_ok (db w)).
  { induction R as [c n | w call context _ IH].
    - repeat split; try constructor; intros r [].
    - apply (step_ids_ok w); [apply server_step | exact IH]. }
  split; [exact K|].
  intros (e & Hin & E). destruct K as [[_ P] _].
  specialize (P e Hin). lia.
Qed.

Lemma reachable_ids_ok_witness :
  reachable (run Sample.later_calls Sample.world1) /\
  ids_ok (db (run Sample.later_calls Sample.world1)) /\
  ~ entry_exists 0 (db (run Sample.later_calls Sample.world1)).
Proof.
  assert (R : reachable (run Sample.later_calls Sample.world1))
    by (apply reachable_run; exact reachable_world1).
  split; [exact R|].
  exact (reachable_ids_ok (run Sample.later_calls Sample.world1) R).
Defined.

(** X7. In every reachable world, every EntryVariants row and every
    UserWordNotes row has the entryId of a stored DictionaryEntry. *)
Theorem reachable_references_ok w :
  reachable w -> references_ok (db w).
Proof.
  induction 1 as [c n | w call context _ IH].
  - split; intros r [].
  - apply (step_references_ok w); [apply server_step | exact IH].
Qed.

Lemma reachable_world2 : reachable Sample.world2.
Proof.
  exact (reachable_call Sample.world1 (CallSaveUserNote Sample.starred)
           (Sample.signed_in "u1") reachable_world1).
Qed.

Lemma reachable_references_ok_witness :
  reachable (run Sample.later_calls Sample.world2) /\
  references_ok (db (run Sample.later_calls Sample.world2)).
Proof.
  assert (R : reachable (run Sample.later_calls Sample.world2))
    by (apply reachable_run; exact reachable_world2).
  split; [exact R|].
  exact (reachable_references_ok (run Sample.later_calls Sample.world2) R).
Defined.

(** X8. In every reachable world whose clock never runs backwards, every
    DictionaryEntry and every UserWordNote has createdAt <= updatedAt,
    and no note has an updatedAt later than the next reading of the
    clock. *)
Theorem reachable_stamps_ok w :
  reachable w -> monotone (clock w) -> stamps_ok w.
Proof.
  induction 1 as [c n | w call context _ IH]; intros M.
  - split; intros r [].
  - pose proof (server_clock call context w) as C.
    rewrite C in M.
    apply (step_stamps_ok w); [apply server_step | exact C | exact M | auto].
Qed.

Lemma reachable_stamps_ok_witness :
  reachable (run Sample.later_calls Sample.world2) /\
  monotone (clock (run Sample.later_calls Sample.world2)) /\
  stamps_ok (run Sample.later_calls Sample.world2).
Proof.
  assert (R : reachable (run Sample.later_calls Sample.world2))
    by (apply reachable_run; exact reachable_world2).
  assert (M : monotone (clock (run Sample.later_calls Sample.world2)))
    by (rewrite run_clock; exact ticking_monotone).
  split; [exact R|]. split; [exact M|].
  exact (reachable_stamps_ok (run Sample.later_calls Sample.world2) R M).
Defined.

(** ** Outcomes *)

(** X9. Under an authenticated caller, saveUserNote throws NOT_FOUND,
    leaving the world as it was, exactly when no DictionaryEntry has the
    id entryId; otherwise it returns a note of that entry and that caller.
    It needs no assumption on the notes already stored. *)
Theorem saveUserNote_outcome input context u w :
  current_user context = Some u ->
  (~ entry_exists (SaveUserNoteInput.entryId input) (db w) ->
   saveUserNote input context w = (Throw NOT_FOUND, w)) /\
  (entry_exists (SaveUserNoteInput.entryId input) (db w) ->
   exists n w',
     saveUserNote input context w = (Return (Some n), w') /\
     UserWordNotes.entryId n = SaveUserNoteInput.entryId input /\
     UserWordNotes.userId n = User.id u) /\
  (outcome (saveUserNote input context) w = Throw NOT_FOUND <->
   ~ entry_exists (SaveUserNoteInput.entryId input) (db w)).
Proof.
  intros U.
  assert (A : ~ entry_exists (SaveUserNoteInput.entryId input) (db w) ->
              saveUserNote input context w = (Throw NOT_FOUND, w)).
  { intros N. unfold saveUserNote, bind.
    rewrite (requireUser_signed_in context u w U).
    unfold select_DictionaryEntries.
    rewrite first_limit_where, (find_entry_none _ _ N). reflexivity. }
  split; [exact A|]. split.
  - intros Y. apply (saveUserNote_returns input context u w U Y).
  - unfold outcome. split.
    + intros T Y.
      destruct (saveUserNote_returns input context u w U Y)
        as (n & w' & R & _).
      rewrite R in T. discriminate.
    + intros N. rewrite (A N). reflexivity.
Qed.

Lemma saveUserNote_outcome_witness :
  current_user (Sample.signed_in "u1") = Some {| User.id := "u1" |} /\
  saveUserNote Sample.starred (Sample.signed_in "u1") Sample.world0
    = (Throw NOT_FOUND, Sample.world0) /\
  exists n w',
    saveUserNote Sample.starred (Sample.signed_in "u1") Sample.world1
      = (Return (Some n), w').
Proof.
  split; [reflexivity|].
  destruct (saveUserNote_outcome Sample.starred (Sample.signed_in "u1")
              {| User.id := "u1" |} Sample.world0 eq_refl) as (A & _ & _).
  destruct (saveUserNote_outcome Sample.starred (Sample.signed_in "u1")
              {| User.id := "u1" |} Sample.world1 eq_refl) as (_ & B & _).
  split.
  - apply A. intros (e & [] & _).
  - destruct B as (n & w' & R & _).
    + eexists. split; [left; reflexivity | reflexivity].
    + exists n, w'. exact R.
Defined.

(** X10. upsertEntry needs no authenticated caller and has one failure:
    it throws NOT_FOUND exactly when the input's id is present, is not 0
    and is the id of no DictionaryEntry; in every other case it returns
    an entry whose term is the input's term. *)
Theorem upsertEntry_outcome input w :
  (outcome (upsertEntry input) w = Throw NOT_FOUND <->
   exists id, UpsertEntryInput.id input = Some id /\ id <> 0 /\
              ~ entry_exists id (db w)) /\
  (outcome (upsertEntry input) w = Throw NOT_FOUND \/
   exists e, outcome (upsertEntry input) w = Return (Some e) /\
             DictionaryEntries.term e = UpsertEntryInput.term input).
Proof.
  unfold outcome.
  rewrite upsertEntry_paths, upsertEntry_baseValues_run.
  set (v := {| DictionaryEntries.v_term := UpsertEntryInput.term input |}).
  set (w1 := {| db := db w |}).
  assert (I : fst (upsertEntry_insert v w1) <> Throw NOT_FOUND /\
              exists e, fst (upsertEntry_insert v w1) = Return (Some e) /\
                        DictionaryEntries.term e = UpsertEntryInput.term input).
  { rewrite upsertEntry_insert_run. cbv zeta. simpl.
    split; [discriminate | eexists; split; reflexivity]. }
  destruct I as [I1 I2].
  destruct (UpsertEntryInput.id input) as [id|] eqn:Hid.
  2:{ split; [|right; exact I2]. split; [contradiction|].
      intros (id & E & _). discriminate. }
  destruct (Z.eqb_spec id 0) as [Z|NZ].
  { subst id. cbn [truthy Z.eqb negb].
    split; [|right; exact I2]. split; [contradiction|].
    intros (id & E & NZ & _). inversion E. congruence. }
  replace (truthy id) with true
    by (unfold truthy; destruct (Z.eqb_spec id 0); [contradiction|reflexivity]).
  destruct (find (fun r => Z.eqb (DictionaryEntries.id r) id)
                 (tDictionaryEntries (db w))) as [existing|] eqn:F.
  - rewrite (upsertEntry_update_found id v w1 existing) by exact F.
    split.
    + split; [discriminate|].
      intros (i & E & _ & N). inversion E; subst i.
      exfalso. apply N. exact (find_entry_exists _ _ _ F).
    + right. eexists. split; reflexivity.
  - rewrite (upsertEntry_update_missing id v w1) by exact F.
    split; [|left; reflexivity]. split; [|reflexivity].
    intros _. exists id. split; [reflexivity|]. split; [exact NZ|].
    intros Y. destruct (find_entry_some _ _ Y) as [x Fx]. congruence.
Qed.

Lemma upsertEntry_outcome_witness :
  outcome (upsertEntry (Sample.run_lemma 7)) Sample.world1 = Throw NOT_FOUND /\
  exists e,
    outcome (upsertEntry (Sample.run_lemma 1)) Sample.world1
      = Return (Some e) /\
    DictionaryEntries.term e = "run".
Proof.
  split.
  - apply (proj1 (upsertEntry_outcome (Sample.run_lemma 7) Sample.world1)).
    exists 7. split; [reflexivity|]. split; [discriminate|].
    intros (e & [<- | []] & E). discriminate E.
  - destruct (proj2 (upsertEntry_outcome (Sample.run_lemma 1) Sample.world1))
      as [T | R]; [discriminate T | exact R].
Defined.

(** ** The update path of upsertEntry *)

Lemma same_id_same_row {row} (id : row -> Z) (rows : list row) x y :
  NoDup (map id rows) -> In x rows -> In y rows -> id x = id y -> x = y.
Proof.
  intros ND Hx Hy E.
  assert (In x (where_ (fun r => Z.eqb (id r) (id y)) rows)).
  { apply filter_In. split; [exact Hx | now apply Z.eqb_eq]. }
  rewrite (where_unique_id id rows y ND Hy) in H.
  destruct H as [<- | []]. reflexivity.
Qed.

(** X11. In a store whose entry ids are a key, upsertEntry with the id of
    a stored entry (not 0) rewrites that entry and nothing else: it
    returns an entry of that id, the table keeps its length and its ids
    in order, every entry of another id is there as before, and the only
    entry of that id is the one returned. *)
Theorem upsertEntry_update_rewrites_one_row input id w :
  UpsertEntryInput.id input = Some id ->
  id <> 0 ->
  entry_exists id (db w) ->
  NoDup (map DictionaryEntries.id (tDictionaryEntries (db w))) ->
  exists e w',
    upsertEntry input w = (Return (Some e), w') /\
    DictionaryEntries.id e = id /\
    map DictionaryEntries.id (tDictionaryEntries (db w'))
      = map DictionaryEntries.id (tDictionaryEntries (db w)) /\
    (forall r, DictionaryEntries.id r <> id ->
       (In r (tDictionaryEntries (db w')) <->
        In r (tDictionaryEntries (db w)))) /\
    (forall r, In r (tDictionaryEntries (db w')) ->
       DictionaryEntries.id r = id -> r = e).
Proof.
  intros Hid Hnz Y ND.
  destruct (find_entry_some _ _ Y) as [existing F].
  rewrite upsertEntry_paths, upsertEntry_baseValues_run, Hid.
  replace (truthy id) with true
    by (unfold truthy; destruct (Z.eqb_spec id 0); [contradiction|reflexivity]).
  rewrite (upsertEntry_update_found _ _ _ existing) by exact F.
  pose proof (find_some _ _ F) as [Hin E]. apply Z.eqb_eq in E.
  eexists. eexists. split; [reflexivity|].
  cbn [db tDictionaryEntries].
  split; [exact E|].
  split; [apply update_rows_ids; reflexivity|].
  split.
  - intros r Hr. unfold update_rows. rewrite in_map_iff. split.
    + intros (x & <- & Hx).
      destruct (Z.eqb_spec (DictionaryEntries.id x) id) as [Ex|_];
        [|exact Hx].
      exfalso. apply Hr. exact Ex.
    + intros Hx. exists r. split; [|exact Hx].
      destruct (Z.eqb_spec (DictionaryEntries.id r) id); [contradiction|].
      reflexivity.
  - intros r Hr Er. unfold update_rows in Hr. apply in_map_iff in Hr.
    destruct Hr as (x & <- & Hx).
    destruct (Z.eqb_spec (DictionaryEntries.id x) id) as [Ex|Nx].
    + rewrite (same_id_same_row DictionaryEntries.id _ x existing ND Hx Hin);
        [reflexivity | congruence].
    + contradiction.
Qed.

Lemma upsertEntry_update_rewrites_one_row_witness :
  UpsertEntryInput.id (Sample.run_lemma 1) = Some 1 /\
  entry_exists 1 (db Sample.world1) /\
  exists e w',
    upsertEntry (Sample.run_lemma 1) Sample.world1 = (Return (Some e), w') /\
    DictionaryEntries.id e = 1 /\
    map DictionaryEntries.id (tDictionaryEntries (db w')) = [1].
Proof.
  assert (Y : entry_exists 1 (db Sample.world1)).
  { eexists. split; [left; reflexivity | reflexivity]. }
  assert (ND : NoDup (map DictionaryEntries.id
                        (tDictionaryEntries (db Sample.world1)))).
  { constructor; [intros [] | constructor]. }
  split; [reflexivity|]. split; [exact Y|].
  destruct (upsertEntry_update_rewrites_one_row (Sample.run_lemma 1) 1
              Sample.world1 eq_refl ltac:(discriminate) Y ND)
    as (e & w' & R & I & M & _).
  exists e, w'. split; [exact R|]. split; [exact I | exact M].
Defined.

(** X18. upsertEntry without id never looks for an entry of the same
    term: two calls with the same input insert two entries, of different
    ids and equal term and language, one after the other. *)
Theorem upsertEntry_without_id_duplicates input w :
  UpsertEntryInput.id input = None ->
  exists e1 w1 e2 w2,
    upsertEntry input w = (Return (Some e1), w1) /\
    upsertEntry input w1 = (Return (Some e2), w2) /\
    tDictionaryEntries (db w2) = tDictionaryEntries (db w) ++ [e1; e2] /\
    DictionaryEntries.id e1 < DictionaryEntries.id e2 /\
    DictionaryEntries.term e2 = DictionaryEntries.term e1 /\
    DictionaryEntries.language e2 = DictionaryEntries.language e1.
Proof.
  intros Hid.
  rewrite upsertEntry_paths, upsertEntry_baseValues_run, Hid.
  rewrite upsertEntry_insert_run. cbv zeta.
  eexists. eexists. eexists. eexists. split; [reflexivity|].
  rewrite upsertEntry_paths, upsertEntry_baseValues_run, Hid.
  rewrite upsertEntry_insert_run. cbv zeta.
  split; [reflexivity|].
  cbn [db tDictionaryEntries DictionaryEntries.id DictionaryEntries.term
       DictionaryEntries.language DictionaryEntries.insert_row
       DictionaryEntries.v_term DictionaryEntries.v_language].
  split; [now rewrite <- app_assoc|].
  split; [|split; reflexivity].
  match goal with
  | |- _ < next_id _ (?l ++ [?e]) =>
      apply (next_id_above DictionaryEntries.id (l ++ [e]) e)
  end.
  apply in_or_app. right. now left.
Qed.

Lemma upsertEntry_without_id_duplicates_witness :
  UpsertEntryInput.id Sample.run_fr = None /\
  exists e1 w1 e2 w2,
    upsertEntry Sample.run_fr Sample.world0 = (Return (Some e1), w1) /\
    upsertEntry Sample.run_fr w1 = (Return (Some e2), w2) /\
    tDictionaryEntries (db w2) = [e1; e2] /\
    DictionaryEntries.id e1 < DictionaryEntries.id e2.
Proof.
  split; [reflexivity|].
  destruct (upsertEntry_without_id_duplicates Sample.run_fr Sample.world0
              eq_refl) as (e1 & w1 & e2 & w2 & R1 & R2 & T & L & _).
  exists e1, w1, e2, w2. split; [exact R1|]. split; [exact R2|].
  split; [exact T | exact L].
Defined.

(** ** Notes: what a save keeps and what a listing shows *)

Lemma where_update_rows_other {row} (set : row -> row) p q (rows : list row) :
  (forall r, In r rows -> p r = true -> q r = false /\ q (set r) = false) ->
  where_ q (update_rows set p rows) = where_ q rows.
Proof.
  unfold where_, update_rows.
  induction rows as [|x rows IH]; simpl; intros H; [reflexivity|].
  assert (IH' : filter q (map (fun r => if p r then set r else r) rows)
                = filter q rows).
  { apply IH. intros r Hr. apply H. now right. }
  destruct (p x) eqn:P.
  - destruct (H x (or_introl eq_refl) P) as [A B]. rewrite A, B. exact IH'.
  - rewrite IH'. reflexivity.
Qed.

Lemma listUserNotes_signed_in context u w :
  current_user context = Some u ->
  listUserNotes context w =
    (Return (where_ (fun r => String.eqb (UserWordNotes.userId r) (User.id u))
                    (tUserWordNotes (db w))), w).
Proof.
  intros U. unfold listUserNotes, bind.
  rewrite (requireUser_signed_in context u w U). reflexivity.
Qed.

Lemma saveUserNote_notes_of_others input context w other :
  NoDup (map UserWordNotes.id (tUserWordNotes (db w))) ->
  (forall u, current_user context = Some u -> User.id u <> other) ->
  where_ (fun r => String.eqb (UserWordNotes.userId r) other)
         (tUserWordNotes (db (after (saveUserNote input context) w)))
  = where_ (fun r => String.eqb (UserWordNotes.userId r) other)
           (tUserWordNotes (db w)).
Proof.
  intros ND Other. unfold after.
  destruct (current_user context) as [u|] eqn:U.
  2:{ destruct (unauthenticated_calls_refused_aux context w U) as [S _].
      rewrite S. reflexivity. }
  specialize (Other u eq_refl).
  destruct (find (fun r => Z.eqb (DictionaryEntries.id r)
                                 (SaveUserNoteInput.entryId input))
                 (tDictionaryEntries (db w))) as [entry|] eqn:F.
  2:{ rewrite (saveUserNote_missing_entry input context u w U);
        [reflexivity|].
      intros H. destruct (find_entry_some _ _ H) as [x Fx]. congruence. }
  assert (Q : forall v r, UserWordNotes.v_userId v = User.id u ->
            String.eqb (UserWordNotes.userId (UserWordNotes.set_row v r)) other
            = false).
  { intros v r E. simpl. rewrite E. now apply String.eqb_neq. }
  destruct (find (same_pair (SaveUserNoteInput.entryId input) (User.id u))
                 (tUserWordNotes (db w))) as [e|] eqn:N.
  - destruct (saveUserNote_found input context u w entry e U F N)
      as (v & w1 & B & R).
    rewrite R. rewrite saveUserNote_baseValues_run in B.
    injection B as Hv Hw. cbn [snd db tUserWordNotes].
    apply find_some in N. destruct N as [Hin He].
    apply same_pair_true in He. destruct He as [_ He].
    apply where_update_rows_other. intros r Hr Pr.
    apply Z.eqb_eq in Pr.
    rewrite (same_id_same_row UserWordNotes.id _ r e ND Hr Hin Pr).
    split.
    + rewrite He. now apply String.eqb_neq.
    + apply Q. subst v. reflexivity.
  - destruct (saveUserNote_first input context u w entry U F N)
      as (v & w1 & B & R).
    cbv zeta in R. rewrite R. rewrite saveUserNote_baseValues_run in B.
    injection B as Hv Hw. cbn [snd db tUserWordNotes].
    unfold where_. rewrite filter_app. simpl.
    replace (String.eqb (UserWordNotes.v_userId v) other) with false.
    + apply app_nil_r.
    + symmetry. subst v. now apply String.eqb_neq.
Qed.

(** X12. In a store whose note ids are a key, a saveUserNote call,
    whatever it does, never changes what listUserNotes returns to a
    caller of another identity. *)
Theorem saveUserNote_keeps_other_users_notes input context u w context' u' :
  NoDup (map UserWordNotes.id (tUserWordNotes (db w))) ->
  current_user context = Some u ->
  current_user context' = Some u' ->
  User.id u' <> User.id u ->
  outcome (listUserNotes context') (after (saveUserNote input context) w)
  = outcome (listUserNotes context') w.
Proof.
  intros ND U U' D. unfold outcome.
  rewrite !(listUserNotes_signed_in context' u') by exact U'.
  cbn [fst]. f_equal.
  apply saveUserNote_notes_of_others; [exact ND|].
  intros x Ux. rewrite U in Ux. inversion Ux; subst x. congruence.
Qed.

Lemma saveUserNote_keeps_other_users_notes_witness :
  exists notes,
    outcome (listUserNotes (Sample.signed_in "u1")) Sample.world2
      = Return notes /\
    List.length notes = 1%nat /\
    outcome (listUserNotes (Sample.signed_in "u1"))
      (after (saveUserNote Sample.noted (Sample.signed_in "u2")) Sample.world2)
      = Return notes.
Proof.
  eexists. split; [reflexivity|]. split; [reflexivity|].
  rewrite (saveUserNote_keeps_other_users_notes
             Sample.noted (Sample.signed_in "u2") {| User.id := "u2" |}
             Sample.world2 (Sample.signed_in "u1") {| User.id := "u1" |}).
  - reflexivity.
  - constructor; [intros [] | constructor].
  - reflexivity.
  - reflexivity.
  - discriminate.
Defined.

(** X14. After saveUserNote returns a note, in a store whose notes were
    well formed, listUserNotes shows it to the same caller, and it is the
    only note of that caller's list for that entry. *)
Theorem saveUserNote_then_listUserNotes input context u w :
  current_user context = Some u ->
  entry_exists (SaveUserNoteInput.entryId input) (db w) ->
  notes_ok (tUserWordNotes (db w)) ->
  exists n w1 notes,
    saveUserNote input context w = (Return (Some n), w1) /\
    listUserNotes context w1 = (Return notes, w1) /\
    In n notes /\
    forall m, In m notes ->
      UserWordNotes.entryId m = SaveUserNoteInput.entryId input -> m = n.
Proof.
  intros U Y OK.
  destruct (saveUserNote_step input context u w U Y OK)
    as (n & w1 & R & _ & _ & _ & W).
  assert (Hn : In n (where_ (same_pair (SaveUserNoteInput.entryId input)
                                       (User.id u))
                            (tUserWordNotes (db w1))))
    by (rewrite W; now left).
  apply filter_In in Hn. destruct Hn as [Hin Hp].
  apply same_pair_true in Hp. destruct Hp as [_ Hu].
  exists n, w1. eexists. split; [exact R|].
  split; [apply (listUserNotes_signed_in context u w1 U)|].
  split.
  - apply filter_In. split; [exact Hin | now apply String.eqb_eq].
  - intros m Hm Em. apply filter_In in Hm. destruct Hm as [Hm Um].
    apply String.eqb_eq in Um.
    assert (Hw : In m (where_ (same_pair (SaveUserNoteInput.entryId input)
                                         (User.id u))
                              (tUserWordNotes (db w1)))).
    { apply filter_In. split; [exact Hm|]. apply same_pair_true. auto. }
    rewrite W in Hw. destruct Hw as [<- | []]. reflexivity.
Qed.

Lemma saveUserNote_then_listUserNotes_witness :
  exists n w1 notes,
    saveUserNote Sample.noted (Sample.signed_in "u1") Sample.world2
      = (Return (Some n), w1) /\
    listUserNotes (Sample.signed_in "u1") w1 = (Return notes, w1) /\
    In n notes /\
    UserWordNotes.note n = Some "means to jog".
Proof.
  assert (Y : entry_exists 1 (db Sample.world2)).
  { eexists. split; [left; reflexivity | reflexivity]. }
  destruct (saveUserNote_then_listUserNotes Sample.noted
              (Sample.signed_in "u1") {| User.id := "u1" |} Sample.world2
              eq_refl Y (reachable_notes_ok _ reachable_world2))
    as (n & w1 & notes & R & L & Hin & _).
  exists n, w1, notes. split; [exact R|]. split; [exact L|].
  split; [exact Hin|].
  vm_compute in R. inversion R; subst n. reflexivity.
Defined.

(** X13. An authenticated caller logs a lookup.  When the input's
    entryId is absent or is the id of a stored entry, listLookupHistory
    then returns to that caller the rows it returned before followed by
    the new row, and to a caller of another identity what it returned
    before.  When the entryId is the id of no stored entry, the call
    throws and listLookupHistory returns to every caller what it returned
    before. *)
Theorem logLookup_then_listLookupHistory input context u w :
  current_user context = Some u ->
  (entry_reference_ok (LogLookupInput.entryId input) (db w) ->
   exists h w1 before,
     logLookup input context w = (Return (Some h), w1) /\
     listLookupHistory context w = (Return before, w) /\
     listLookupHistory context w1 = (Return (before ++ [h]), w1) /\
     forall context' u',
       current_user context' = Some u' -> User.id u' <> User.id u ->
       outcome (listLookupHistory context') w1
       = outcome (listLookupHistory context') w) /\
  (~ entry_reference_ok (LogLookupInput.entryId input) (db w) ->
   outcome (logLookup input context) w = Throw INTERNAL_SERVER_ERROR /\
   forall context',
     outcome (listLookupHistory context')
       (after (logLookup input context) w)
     = outcome (listLookupHistory context') w).
Proof.
  intros U.
  assert (L : forall c x w0, current_user c = Some x ->
    listLookupHistory c w0 =
      (Return (where_ (fun r => eq_text (LookupHistory.userId r) (User.id x))
                      (tLookupHistory (db w0))), w0)).
  { intros c x w0 Hc. unfold listLookupHistory, bind.
    rewrite (requireUser_signed_in c x w0 Hc). reflexivity. }
  split.
  - intros Ok.
    rewrite (logLookup_signed_in input context u w U Ok). cbv zeta.
    eexists. eexists. eexists. split; [reflexivity|].
    split; [apply (L context u w U)|]. split.
    + rewrite (L context u _ U). cbn [db tLookupHistory].
      unfold where_. rewrite filter_app. simpl.
      rewrite String.eqb_refl. reflexivity.
    + intros context' u' U' D. unfold outcome.
      rewrite !(L context' u') by exact U'. cbn [fst db tLookupHistory].
      unfold where_. rewrite filter_app. simpl.
      replace (String.eqb (User.id u) (User.id u')) with false
        by (symmetry; apply String.eqb_neq; congruence).
      now rewrite app_nil_r.
  - intros No. unfold outcome, after.
    rewrite (logLookup_dangling input context u w U No).
    split; [reflexivity|].
    intros context'. cbn [snd].
    destruct (current_user context') as [u'|] eqn:U'.
    + rewrite !(L context' u') by exact U'. reflexivity.
    + unfold listLookupHistory, bind.
      rewrite !(requireUser_anonymous context') by exact U'. reflexivity.
Qed.

Lemma logLookup_then_listLookupHistory_witness :
  (exists h w1 before,
     logLookup Sample.looked_up_run (Sample.signed_in "u1") Sample.world4
       = (Return (Some h), w1) /\
     List.length before = 1%nat /\
     listLookupHistory (Sample.signed_in "u1") w1
       = (Return (before ++ [h]), w1)) /\
  outcome (logLookup Sample.looked_up_nothing (Sample.signed_in "u1"))
    Sample.world4 = Throw INTERNAL_SERVER_ERROR.
Proof.
  destruct (logLookup_then_listLookupHistory Sample.looked_up_run
              (Sample.signed_in "u1") {| User.id := "u1" |} Sample.world4
              eq_refl) as [Yes _].
  destruct (logLookup_then_listLookupHistory Sample.looked_up_nothing
              (Sample.signed_in "u1") {| User.id := "u1" |} Sample.world4
              eq_refl) as [_ No].
  split.
  - destruct Yes as (h & w1 & before & R & B & A & _).
    + eexists. split; [left; reflexivity | reflexivity].
    + exists h, w1, before. split; [exact R|]. split; [|exact A].
      vm_compute in B. inversion B. reflexivity.
  - apply No. intros (e & [<- | []] & E). discriminate E.
Defined.

(** X15. When the caller already has a note for the entry, saveUserNote
    rewrites it in place: the note returned has the id and the createdAt
    of the note found, its updatedAt is the reading of the clock taken by
    the call, and the table keeps its ids in order.  Where the stored
    timestamps are those of a reachable world, updatedAt does not
    decrease. *)
Theorem saveUserNote_update_keeps_id_and_createdAt input context u w e :
  current_user context = Some u ->
  entry_exists (SaveUserNoteInput.entryId input) (db w) ->
  find (same_pair (SaveUserNoteInput.entryId input) (User.id u))
       (tUserWordNotes (db w)) = Some e ->
  exists n w',
    saveUserNote input context w = (Return (Some n), w') /\
    UserWordNotes.id n = UserWordNotes.id e /\
    UserWordNotes.createdAt n = UserWordNotes.createdAt e /\
    UserWordNotes.updatedAt n = clock w (reads w) /\
    map UserWordNotes.id (tUserWordNotes (db w'))
      = map UserWordNotes.id (tUserWordNotes (db w)) /\
    (stamps_ok w ->
     UserWordNotes.updatedAt e <= UserWordNotes.updatedAt n).
Proof.
  intros U Y N. destruct (find_entry_some _ _ Y) as [entry F].
  destruct (saveUserNote_found input context u w entry e U F N)
    as (v & w1 & B & R).
  rewrite R. rewrite saveUserNote_baseValues_run in B.
  injection B as Hv Hw.
  pose proof (find_some _ _ N) as [Hin _].
  destruct (find_of_in
              (fun r => Z.eqb (UserWordNotes.id r) (UserWordNotes.id e))
              _ e Hin (Z.eqb_refl _)) as [x Fx].
  rewrite Fx. pose proof (find_some _ _ Fx) as [_ Ex].
  apply Z.eqb_eq in Ex.
  eexists. eexists. split; [reflexivity|].
  cbn [option_map db tUserWordNotes UserWordNotes.set_row UserWordNotes.id
       UserWordNotes.createdAt UserWordNotes.updatedAt].
  split; [exact Ex|]. subst v.
  cbn [UserWordNotes.v_createdAt UserWordNotes.v_updatedAt].
  split; [reflexivity|]. split; [reflexivity|].
  split; [apply update_rows_ids; reflexivity|].
  intros [_ SN]. exact (proj2 (SN e Hin)).
Qed.

Lemma saveUserNote_update_keeps_id_and_createdAt_witness :
  exists e n w',
    find (same_pair 1 "u1") (tUserWordNotes (db Sample.world2)) = Some e /\
    saveUserNote Sample.noted (Sample.signed_in "u1") Sample.world2
      = (Return (Some n), w') /\
    UserWordNotes.id n = UserWordNotes.id e /\
    UserWordNotes.createdAt n = UserWordNotes.createdAt e /\
    UserWordNotes.updatedAt e <= UserWordNotes.updatedAt n.
Proof.
  assert (Y : entry_exists 1 (db Sample.world2)).
  { eexists. split; [left; reflexivity | reflexivity]. }
  eexists.
  assert (N : find (same_pair 1 "u1") (tUserWordNotes (db Sample.world2))
              = Some _) by (vm_compute; reflexivity).
  destruct (saveUserNote_update_keeps_id_and_createdAt Sample.noted
              (Sample.signed_in "u1") {| User.id := "u1" |} Sample.world2 _
              eq_refl Y N) as (n & w' & R & I & C & _ & _ & S).
  exists n, w'. split; [exact N|]. split; [exact R|].
  split; [exact I|]. split; [exact C|].
  apply S. split.
  - intros r [<- | []]. vm_compute. discriminate.
  - intros r [<- | []]. vm_compute. split; discriminate.
Defined.

(** X16. The first note of a caller for an entry is inserted at the end
    of the table under an unused id, with the caller's id, the input's
    entryId, the input's tags, note and exampleSentence (NULL when
    omitted), isStarred false and familiarity "new" unless the input
    gives them, and createdAt and updatedAt the two readings of the clock
    taken by the call. *)
Theorem saveUserNote_first_save input context u w :
  current_user context = Some u ->
  entry_exists (SaveUserNoteInput.entryId input) (db w) ->
  find (same_pair (SaveUserNoteInput.entryId input) (User.id u))
       (tUserWordNotes (db w)) = None ->
  exists n w',
    saveUserNote input context w = (Return (Some n), w') /\
    tUserWordNotes (db w') = tUserWordNotes (db w) ++ [n] /\
    ~ In (UserWordNotes.id n)
         (map UserWordNotes.id (tUserWordNotes (db w))) /\
    UserWordNotes.userId n = User.id u /\
    UserWordNotes.entryId n = SaveUserNoteInput.entryId input /\
    UserWordNotes.tags n = SaveUserNoteInput.tags input /\
    UserWordNotes.note n = SaveUserNoteInput.note input /\
    UserWordNotes.exampleSentence n
      = SaveUserNoteInput.exampleSentence input /\
    UserWordNotes.isStarred n =
      match SaveUserNoteInput.isStarred input with
      | Some b => b
      | None => false
      end /\
    UserWordNotes.familiarity n =
      match SaveUserNoteInput.familiarity input with
      | Some f => f
      | None => Fnew
      end /\
    UserWordNotes.createdAt n = clock w (reads w) /\
    UserWordNotes.updatedAt n = clock w (S (reads w)).
Proof.
  intros U Y N. destruct (find_entry_some _ _ Y) as [entry F].
  destruct (saveUserNote_first input context u w entry U F N)
    as (v & w1 & B & R).
  cbv zeta in R. rewrite R. rewrite saveUserNote_baseValues_run in B.
  injection B as Hv Hw.
  eexists. eexists. split; [reflexivity|].
  cbn [db tUserWordNotes UserWordNotes.insert_row UserWordNotes.id
       UserWordNotes.userId UserWordNotes.entryId UserWordNotes.tags
       UserWordNotes.note UserWordNotes.exampleSentence
       UserWordNotes.isStarred UserWordNotes.familiarity
       UserWordNotes.createdAt UserWordNotes.updatedAt].
  split; [reflexivity|]. split; [apply next_id_fresh|].
  subst v. cbn.
  split; [reflexivity|]. split; [reflexivity|].
  split; [destruct (SaveUserNoteInput.tags input); reflexivity|].
  split; [destruct (SaveUserNoteInput.note input); reflexivity|].
  split; [destruct (SaveUserNoteInput.exampleSentence input); reflexivity|].
  split; [destruct (SaveUserNoteInput.isStarred input); reflexivity|].
  split; [destruct (SaveUserNoteInput.familiarity input); reflexivity|].
  split; reflexivity.
Qed.

Lemma saveUserNote_first_save_witness :
  exists n w',
    saveUserNote Sample.starred (Sample.signed_in "u1") Sample.world1
      = (Return (Some n), w') /\
    tUserWordNotes (db w') = [n] /\
    UserWordNotes.isStarred n = true /\
    UserWordNotes.familiarity n = Fnew /\
    UserWordNotes.note n = None.
Proof.
  assert (Y : entry_exists 1 (db Sample.world1)).
  { eexists. split; [left; reflexivity | reflexivity]. }
  destruct (saveUserNote_first_save Sample.starred (Sample.signed_in "u1")
              {| User.id := "u1" |} Sample.world1 eq_refl Y eq_refl)
    as (n & w' & R & T & _ & _ & _ & _ & No & _ & S & Fa & _).
  exists n, w'. split; [exact R|]. split; [exact T|].
  split; [exact S|]. split; [exact Fa | exact No].
Defined.

(** A reachable world with a note of U1 and a note of U2 for the same
    entry: each pair has its one note. *)
Lemma reachable_one_note_per_pair_witness :
  reachable (run Sample.later_calls Sample.world2) /\
  List.length (tUserWordNotes (db (run Sample.later_calls Sample.world2)))
    = 2%nat /\
  (List.length
     (where_ (same_pair 1 "u1")
        (tUserWordNotes (db (run Sample.later_calls Sample.world2))))
   <= 1)%nat.
Proof.
  assert (R : reachable (run Sample.later_calls Sample.world2))
    by (apply reachable_run; exact reachable_world2).
  split; [exact R|]. split; [reflexivity|].
  exact (reachable_one_note_per_pair _ 1 "u1" R).
Defined.
